(** * A shallow embedding of the LLIK inverse-kinematics solver

    Source: [src/unnamed/part_001] (llik.cpp of the viewer).

    Scalars ([F32]) are modelled as exact numbers: [Q] where the code only
    compares and adds them (angle limits, iteration errors, config diffs), and
    [R] where quaternions are normalised (square roots).  Rounding is not
    modelled. *)

From Stdlib Require Import ZArith QArith Qabs Reals Lra Lia Bool.
From stdpp Require Import base gmap sets list.
From Stdlib Require Lqa String Ascii Btauto.
From stdpp Require strings.

(* ------------------------------------------------------------------ *)
(** ** Angle helpers: [remove_multiples_of_two_pi], [compute_angle_limits] *)

Module Angles.
Local Open Scope Q_scope.

(** Modelled from the spec: [F_PI] and [F_TWO_PI] are the llmath constants
    (llmath/llmath.h, not under src/), written here with their source
    literals 3.1415926535897932384626433832795 and
    6.283185307179586476925286766559. *)
Definition F_PI : Q :=
  31415926535897932384626433832795 # 10000000000000000000000000000000.
Definition F_TWO_PI : Q :=
  6283185307179586476925286766559 # 1000000000000000000000000000000.

(** C++ cast [(S32)x] truncates toward zero. *)
Definition s32_cast (x : Q) : Z := Z.quot (Qnum x) (Zpos (Qden x)).

(** [remove_multiples_of_two_pi] *)
Definition remove_multiples_of_two_pi (angle : Q) : Q :=
  angle - F_TWO_PI * inject_Z (s32_cast (angle / F_TWO_PI)).

(** [compute_angle_limits(min_angle, max_angle)]: both arguments are
    references, the result is the pair of their final values. *)
Definition compute_angle_limits (min_angle max_angle : Q) : Q * Q :=
  let max1 := remove_multiples_of_two_pi max_angle in
  let max2 := if Qlt_le_dec F_PI max1 then max1 - F_TWO_PI else max1 in
  let min1 := remove_multiples_of_two_pi min_angle in
  let min2 := if Qlt_le_dec F_PI min1 then min1 - F_TWO_PI else min1 in
  if Qlt_le_dec max2 min2 then (max2, min2) else (min2, max2).

End Angles.

(* ------------------------------------------------------------------ *)
(** ** The iteration loop of [LLIK::Solver::solve] *)

Module SolveLoop.
Local Open Scope Q_scope.

Definition MAX_SOLVER_ITERATIONS : nat := 16.
Definition MIN_SOLVER_ITERATIONS : nat := 4.

Section Loop.
(** The solver state threaded through the passes, and [solveOnce]: one
    FABRIK pass followed by [measureMaxError]. *)
Variable State : Type.
Variable solveOnce : State -> State * Q.
Variable mAcceptableError : Q.

(** The loop guard [loop < MIN || (loop < MAX && max_error > mAcceptableError)]. *)
Definition loop_guard (loop : nat) (max_error : Q) : bool :=
  Nat.ltb loop MIN_SOLVER_ITERATIONS
  || (Nat.ltb loop MAX_SOLVER_ITERATIONS
      && negb (Qle_bool max_error mAcceptableError)).

(** The [for] loop, run with [fuel] remaining turns; it returns the final
    value of [loop], of [max_error] and the state.  [solve] runs it with
    [fuel = MAX_SOLVER_ITERATIONS]: the guard fails once [loop] reaches
    [MAX_SOLVER_ITERATIONS], so the fuel never runs out first. *)
Fixpoint solve_loop (fuel loop : nat) (max_error : Q) (s : State)
  : nat * Q * State :=
  match fuel with
  | O => (loop, max_error, s)
  | S fuel' =>
      if loop_guard loop max_error then
        let '(s', e) := solveOnce s in
        solve_loop fuel' (S loop) e s'
      else (loop, max_error, s)
  end.

(** [std::numeric_limits<F32>::max()] *)
Definition F32_MAX : Q := inject_Z (340282346638528859811704183484516925440%Z).

(** [solve()] after [rebuildAllChains] and the initial relaxation (folded
    into the initial state): number of passes run, [mLastError], state. *)
Definition solve (s : State) : nat * Q * State :=
  solve_loop MAX_SOLVER_ITERATIONS 0 F32_MAX s.

(** The state and error after [k] consecutive calls to [solveOnce]. *)
Fixpoint passes (k : nat) (s : State) : State * Q :=
  match k with
  | O => (s, F32_MAX)
  | S k' => solveOnce (fst (passes k' s))
  end.

End Loop.
End SolveLoop.

(* ------------------------------------------------------------------ *)
(** ** Config flags (llik.h) *)

Module Flags.
Local Open Scope Z_scope.
Definition CONFIG_FLAG_LOCAL_POS : Z := Z.shiftl 1 0.
Definition CONFIG_FLAG_LOCAL_ROT : Z := Z.shiftl 1 1.
Definition CONFIG_FLAG_LOCAL_SCALE : Z := Z.shiftl 1 2.
Definition CONFIG_FLAG_DISABLE_CONSTRAINT : Z := Z.shiftl 1 3.
Definition CONFIG_FLAG_TARGET_POS : Z := Z.shiftl 1 4.
Definition CONFIG_FLAG_TARGET_ROT : Z := Z.shiftl 1 5.
Definition CONFIG_FLAG_HAS_DELEGATED : Z := Z.shiftl 1 6.

Definition IK_FLAG_LOCAL_ROT : Z := Z.shiftl 1 1.
Definition IK_FLAG_ACTIVE : Z := Z.shiftl 1 5.
Definition IK_FLAG_LOCAL_ROT_LOCKED : Z := Z.shiftl 1 7.

(** [(flags & bit) > 0] *)
Definition has (flags bit : Z) : bool := 0 <? Z.land flags bit.
End Flags.

(* ------------------------------------------------------------------ *)
(** ** [LLIK::Solver::updateJointConfigs] *)

Module ConfigDiff.
Import Flags.

Section Diff.
(** Vectors and quaternions are opaque here: the diff only measures them
    with [dist_vec] and [LLQuaternion::almost_equal]. *)
Variable Vec Quat : Type.
Variable dist_vec : Vec -> Vec -> Q.
Variable almost_equal : Quat -> Quat -> bool.
Variable mAcceptableError : Q.

(** [LLIK::Joint::Config] *)
Record Config := {
  mLocalPos : Vec;
  mLocalRot : Quat;
  mLocalScale : Vec;
  mTargetPos : Vec;
  mTargetRot : Quat;
  mChainLimit : Z;
  mFlags : Z
}.

(** [std::abs(dist_vec(a, b)) > mAcceptableError] *)
Definition pos_changed (a b : Vec) : bool :=
  negb (Qle_bool (Qabs (dist_vec a b)) mAcceptableError).

(** The body of the loop over [mJointConfigs] for one entry found in
    [configs]: [true] is the [something_changed = true; break;] exit. *)
Definition entry_changed (old_target new_target : Config) : bool :=
  let mask := mFlags old_target in
  if negb (Z.eqb mask (mFlags new_target)) then true
  else if has mask CONFIG_FLAG_TARGET_POS
          && pos_changed (mTargetPos old_target) (mTargetPos new_target) then true
  else if has mask CONFIG_FLAG_TARGET_ROT
          && negb (almost_equal (mTargetRot old_target) (mTargetRot new_target)) then true
  else if has mask CONFIG_FLAG_LOCAL_POS
          && pos_changed (mLocalPos old_target) (mLocalPos new_target) then true
  else if has mask CONFIG_FLAG_LOCAL_ROT
          && negb (almost_equal (mLocalRot old_target) (mLocalRot new_target)) then true
  else false.

(** The loop [for (data_pair : mJointConfigs)] with its [break]s. *)
Fixpoint scan (olds : list (Z * Config)) (configs : gmap Z Config) : bool :=
  match olds with
  | [] => false
  | (id, old_target) :: rest =>
      match configs !! id with
      | Some new_target =>
          if entry_changed old_target new_target then true else scan rest configs
      | None => true
      end
  end.

(** [updateJointConfigs(configs)] on the cached [mJointConfigs]: the
    returned flag and the new [mJointConfigs]. *)
Definition updateJointConfigs (mJointConfigs configs : gmap Z Config)
  : bool * gmap Z Config :=
  let something_changed :=
    if Nat.eqb (size configs) (size mJointConfigs)
    then scan (map_to_list mJointConfigs) configs
    else true in
  (something_changed, if something_changed then configs else mJointConfigs).

(** The claim's notion of "every configured field within tolerance". *)
Definition within_tolerance (o n : Config) : Prop :=
  mFlags o = mFlags n /\
  (has (mFlags o) CONFIG_FLAG_TARGET_POS = true ->
     (Qabs (dist_vec (mTargetPos o) (mTargetPos n)) <= mAcceptableError)%Q) /\
  (has (mFlags o) CONFIG_FLAG_TARGET_ROT = true ->
     almost_equal (mTargetRot o) (mTargetRot n) = true) /\
  (has (mFlags o) CONFIG_FLAG_LOCAL_POS = true ->
     (Qabs (dist_vec (mLocalPos o) (mLocalPos n)) <= mAcceptableError)%Q) /\
  (has (mFlags o) CONFIG_FLAG_LOCAL_ROT = true ->
     almost_equal (mLocalRot o) (mLocalRot n) = true).

End Diff.
End ConfigDiff.

(* ------------------------------------------------------------------ *)
(** ** The chain builder: [LLIK::Solver::buildChain] *)

Module Chains.
Import Flags.

(** The part of a [LLIK::Joint] the chain builder reads: its parent (by
    id; [None] for the root's null [mParent]), its children and its cached
    [mConfigFlags].  The joint's id is its key in [mSkeleton]. *)
Record Joint := {
  mParent : option Z;
  mChildren : list Z;
  mConfigFlags : Z
}.

(** The part of a [LLIK::Solver] the chain builder reads. *)
Record Solver := {
  mSkeleton : gmap Z Joint;
  mSubBaseIds : gset Z;
  mSubRootIds : gset Z;
  mRootID : Z
}.

Definition hasPosTarget (j : Joint) : bool := has (mConfigFlags j) CONFIG_FLAG_TARGET_POS.
Definition getNumChildren (j : Joint) : nat := length (mChildren j).

(** [LLIK::Solver::isSubBase] *)
Definition isSubBase (s : Solver) (joint_id : Z) : bool :=
  bool_decide (joint_id ∈ mSubBaseIds s).

(** [LLIK::Solver::isSubRoot] *)
Definition isSubRoot (s : Solver) (joint_id : Z) : bool :=
  negb (bool_decide (mSubRootIds s = ∅)) && bool_decide (joint_id ∈ mSubRootIds s).

(** Which of the four [break]s of the walk fires at a joint. *)
Inductive stop := StopSubRoot | StopRoot | StopTarget | StopSubBase.

(** The [break] checks of the loop body, in source order. *)
Definition stop_check (s : Solver) (joint_id : Z) (j : Joint) : option stop :=
  if isSubRoot s joint_id then Some StopSubRoot
  else if Z.eqb joint_id (mRootID s) then Some StopRoot
  else if hasPosTarget j then Some StopTarget
  else if (bool_decide (mSubBaseIds s = ∅) && Nat.ltb 1 (getNumChildren j))
          || isSubBase s joint_id then Some StopSubBase
  else None.

(** [joint->getParent()] read by id. *)
Definition parent_of (s : Solver) (joint_id : Z) : option Z :=
  match mSkeleton s !! joint_id with Some j => mParent j | None => None end.

(** The [while (joint && chain.size() < chain_length)] loop.  [fuel] is
    [chain_length - chain.size()]: every turn appends one joint.  A parent id
    is always a joint of [mSkeleton] (parents are added first in [addJoint]);
    an id without a joint is treated as the null pointer.  The result is the
    chain, [sub_bases] and the set of activated joint ids. *)
Fixpoint walk (s : Solver) (fuel : nat) (joint : option Z) (chain : list Z)
    (sub_bases : gset Z) (active : gset Z) : list Z * gset Z * gset Z :=
  match fuel with
  | O => (chain, sub_bases, active)
  | S fuel' =>
      match joint with
      | None => (chain, sub_bases, active)
      | Some joint_id =>
          match mSkeleton s !! joint_id with
          | None => (chain, sub_bases, active)
          | Some j =>
              let chain' := chain ++ [joint_id] in
              let active' := {[joint_id]} ∪ active in
              match stop_check s joint_id j with
              | Some StopSubBase => (chain', {[joint_id]} ∪ sub_bases, active')
              | Some _ => (chain', sub_bases, active')
              | None => walk s fuel' (mParent j) chain' sub_bases active'
              end
          end
      end
  end.

(** [buildChain(joint, chain, sub_bases, chain_length)]: push the seed joint,
    activate it, then walk up from its parent. *)
Definition buildChain (s : Solver) (joint : Z) (chain : list Z)
    (sub_bases : gset Z) (chain_length : nat) (active : gset Z)
  : list Z * gset Z * gset Z :=
  let chain1 := chain ++ [joint] in
  walk s (chain_length - length chain1) (parent_of s joint) chain1
    sub_bases ({[joint]} ∪ active).

(** Descriptions used by the statements about the builder. *)
Definition stop_at (s : Solver) (joint_id : Z) : option stop :=
  match mSkeleton s !! joint_id with
  | Some j => stop_check s joint_id j
  | None => None
  end.

Definition is_sub_base_stop (o : option stop) : bool :=
  match o with Some StopSubBase => true | _ => false end.

(** [ext] is a walk up the parent links starting at [start], passing only
    joints at which no [break] fires except possibly the last. *)
Fixpoint up_path (s : Solver) (start : option Z) (ext : list Z) : Prop :=
  match ext with
  | [] => True
  | a :: r =>
      start = Some a /\ is_Some (mSkeleton s !! a) /\
      (r <> [] -> stop_at s a = None) /\ up_path s (parent_of s a) r
  end.

(** The joint the walk would visit after [ext]. *)
Definition after (s : Solver) (start : option Z) (ext : list Z) : option Z :=
  match last ext with Some a => parent_of s a | None => start end.

Definition is_joint (s : Solver) (o : option Z) : Prop :=
  match o with Some p => is_Some (mSkeleton s !! p) | None => False end.

End Chains.

(** Concrete skeletons for the chain builder: root 0, joint 1 under it with
    two children 2 and 3, and a position target on 2. *)
Module ChainScenarios.
Import Chains.

Definition fork_skeleton : gmap Z Joint :=
  <[0%Z := {| mParent := None; mChildren := [1%Z]; mConfigFlags := 0 |}]>
  (<[1%Z := {| mParent := Some 0%Z; mChildren := [2%Z; 3%Z]; mConfigFlags := 0 |}]>
  (<[2%Z := {| mParent := Some 1%Z; mChildren := [];
               mConfigFlags := Flags.CONFIG_FLAG_TARGET_POS |}]>
  (<[3%Z := {| mParent := Some 1%Z; mChildren := []; mConfigFlags := 0 |}]> ∅))).

(** No sub-base whitelist. *)
Definition fork_solver : Solver :=
  {| mSkeleton := fork_skeleton; mSubBaseIds := ∅; mSubRootIds := ∅;
     mRootID := 0 |}.

(** A non-empty whitelist naming some other joint (7). *)
Definition fork_solver_whitelist : Solver :=
  {| mSkeleton := fork_skeleton; mSubBaseIds := {[7%Z]}; mSubRootIds := ∅;
     mRootID := 0 |}.

End ChainScenarios.

(* ------------------------------------------------------------------ *)
(** ** Skeleton lookups: [measureMaxError] and the per-joint readbacks *)

Module Lookups.
Import Flags ConfigDiff.

Section Lookups.
Variable Vec Quat Joint : Type.
Variable dist_vec : Vec -> Vec -> Q.
Variable computeWorldEndPos : Joint -> Vec.
Variable getWorldRot : Joint -> Quat.
(** A default-constructed [LLQuaternion]. *)
Variable default_rot : Quat.

(** [mSkeleton] is a [std::map<S16, Joint::ptr_t>]: a present key may hold
    a null [shared_ptr] ([None]); [operator[]] on a missing key inserts a
    null one. *)
Definition skeleton := gmap Z (option Joint).

(** [mSkeleton[joint_id]->...]: the result of [operator[]] dereferenced;
    [None] is a null-pointer dereference. *)
Definition subscript_deref (sk : skeleton) (joint_id : Z) : option Joint :=
  match sk !! joint_id with
  | Some (Some j) => Some j
  | _ => None
  end.

(** The body of the loop of [measureMaxError] for one config entry. *)
Definition measure_entry (sk : skeleton) (mRootID : Z) (max_error : Q)
    (entry : Z * Config Vec Quat) : option Q :=
  let '(joint_id, target) := entry in
  if Z.eqb joint_id mRootID then Some max_error
  else if has (mFlags _ _ target) CONFIG_FLAG_TARGET_POS
          && negb (has (mFlags _ _ target) CONFIG_FLAG_HAS_DELEGATED) then
    match subscript_deref sk joint_id with
    | None => None
    | Some j =>
        let dist := dist_vec (computeWorldEndPos j) (mTargetPos _ _ target) in
        Some (if Qlt_le_dec max_error dist then dist else max_error)
    end
  else Some max_error.

Fixpoint measure_loop (sk : skeleton) (mRootID : Z) (max_error : Q)
    (entries : list (Z * Config Vec Quat)) : option Q :=
  match entries with
  | [] => Some max_error
  | e :: rest =>
      match measure_entry sk mRootID max_error e with
      | None => None
      | Some m => measure_loop sk mRootID m rest
      end
  end.

(** [LLIK::Solver::measureMaxError]; [None] is a crash. *)
Definition measureMaxError (sk : skeleton) (mRootID : Z)
    (mJointConfigs : gmap Z (Config Vec Quat)) : option Q :=
  measure_loop sk mRootID 0 (map_to_list mJointConfigs).

(** [LLIK::Solver::getJointWorldRot]: [find], then dereference the pointer
    found. *)
Definition getJointWorldRot (sk : skeleton) (joint_id : Z) : option Quat :=
  match sk !! joint_id with
  | Some (Some j) => Some (getWorldRot j)
  | Some None => None
  | None => Some default_rot
  end.

(** The config-map loop of [rebuildAllChains]: ids not in [mSkeleton]
    ([find] fails) are skipped; the result is the list of ids processed. *)
Definition rebuild_visited (sk : skeleton) (mJointConfigs : gmap Z (Config Vec Quat))
  : list Z :=
  filter (fun id => is_Some (sk !! id)) (map fst (map_to_list mJointConfigs)).

End Lookups.
End Lookups.

(* ------------------------------------------------------------------ *)
(** ** Constraint hashing and [LLIKConstraintFactory::getConstraint] *)

Module Hashing.
Local Open Scope Q_scope.

(** [LLIK::Constraint::ConstraintType]; [ACUTE_ELLIPSOIDAL_CONE_CONSTRAINT]
    is its seventh enumerator. *)
Definition ACUTE_ELLIPSOIDAL_CONE_CONSTRAINT : Z := 6.

(** [LLVector3] as its three components. *)
Definition Vec3 : Type := Q * Q * Q.

(** A value fed to [boost::hash_combine]: the type tag, a vector or an
    [F32]. *)
Inductive HashItem :=
| HType (t : Z)
| HVec (v : Vec3)
| HF32 (x : Q).

(** The fields of [LLIK::AcuteEllipsoidalCone] that [generateHash] and the
    projection read ([mType], [mForward] come from [Constraint]). *)
Record AcuteEllipsoidalCone := {
  mType : Z;
  mForward : Vec3;
  mUp : Vec3;
  mLeft : Vec3;
  mXForward : Q;
  mXUp : Q;
  mXDown : Q;
  mXLeft : Q;
  mXRight : Q
}.

(** The values [Constraint::generateHash] combines, in order. *)
Definition constraint_hash_inputs (c : AcuteEllipsoidalCone) : list HashItem :=
  [HType (mType c); HVec (mForward c)].

(** The values [AcuteEllipsoidalCone::generateHash] combines, in order. *)
Definition hash_inputs (c : AcuteEllipsoidalCone) : list HashItem :=
  constraint_hash_inputs c ++
  [HVec (mUp c); HF32 (mXForward c); HF32 (mXUp c); HF32 (mXDown c);
   HVec (mLeft c); HF32 (mXRight c)].

Section Hash.
(** [boost::hash_combine(seed, v)], as the new seed. *)
Variable hash_combine : Z -> HashItem -> Z.

(** [AcuteEllipsoidalCone::generateHash]: [size_t seed = 0] then the
    combines. *)
Definition generateHash (c : AcuteEllipsoidalCone) : Z :=
  fold_left hash_combine (hash_inputs c) 0%Z.

(** [LLIKConstraintFactory::getConstraint] after [create] succeeded with
    [c]: the new [mConstraints] and the returned instance. *)
Definition getConstraint (mConstraints : gmap Z AcuteEllipsoidalCone)
    (c : AcuteEllipsoidalCone) : gmap Z AcuteEllipsoidalCone * AcuteEllipsoidalCone :=
  let id := generateHash c in
  match mConstraints !! id with
  | None => (<[id := c]> mConstraints, c)
  | Some shared => (mConstraints, shared)
  end.
End Hash.

(** [mQuadrantScales[1] = up / left] of the constructor. *)
Definition quadrant_scale_1 (c : AcuteEllipsoidalCone) : Q :=
  Qabs (mXUp c / mXForward c) / Qabs (mXLeft c / mXForward c).

(** Two cones with the front axis x, the up axis z (so [mLeft = z % x = y])
    and extents forward 1, up 1, down 1, right 1; left 1 and left 2. *)
Definition cone_with_left (left : Q) : AcuteEllipsoidalCone :=
  {| mType := ACUTE_ELLIPSOIDAL_CONE_CONSTRAINT;
     mForward := (1, 0, 0); mUp := (0, 0, 1); mLeft := (0, 1, 0);
     mXForward := 1; mXUp := 1; mXDown := 1; mXLeft := left; mXRight := 1 |}.

End Hashing.

(* ------------------------------------------------------------------ *)
(** ** Vectors and quaternions over [R] *)

(** Modelled from the spec: [LLVector3] and [LLQuaternion] are llmath types
    (not under src/).  The spec fixes the conventions used here: [v * q] is
    [v] rotated by the unit quaternion [q]; [q1 * q2] applies [q1] first, then
    [q2] (the Hamilton product [q2 q1]); [normalize] rescales to unit length;
    [shortestArc] uses the half-angle construction; [almost_equal] compares
    the components, or the components after negating one argument, against
    a tolerance. *)
Module QuatR.
Local Open Scope R_scope.

Record LLVector3 := mkV { vx : R; vy : R; vz : R }.
Record LLQuaternion := mkQ { qx : R; qy : R; qz : R; qw : R }.

(** [LLQuaternion::DEFAULT], also the default constructor. *)
Definition DEFAULT : LLQuaternion := mkQ 0 0 0 1.
Definition FP_MAG_THRESHOLD : R := 1 / 10000000.

Definition vadd (a b : LLVector3) : LLVector3 :=
  mkV (vx a + vx b) (vy a + vy b) (vz a + vz b).
Definition vsub (a b : LLVector3) : LLVector3 :=
  mkV (vx a - vx b) (vy a - vy b) (vz a - vz b).
Definition vscale (k : R) (a : LLVector3) : LLVector3 :=
  mkV (k * vx a) (k * vy a) (k * vz a).
(** [a * b] on vectors: the dot product. *)
Definition vdot (a b : LLVector3) : R := vx a * vx b + vy a * vy b + vz a * vz b.
(** [a % b]: the cross product. *)
Definition vcross (a b : LLVector3) : LLVector3 :=
  mkV (vy a * vz b - vz a * vy b) (vz a * vx b - vx a * vz b) (vx a * vy b - vy a * vx b).
Definition vlength (a : LLVector3) : R := sqrt (vdot a a).
(** [LLVector3::normalize]; a vector too short to normalise becomes zero. *)
Definition vnormalize (a : LLVector3) : LLVector3 :=
  let mag := vlength a in
  if Rlt_dec FP_MAG_THRESHOLD mag then vscale (/ mag) a else mkV 0 0 0.

Definition hamilton (a b : LLQuaternion) : LLQuaternion :=
  mkQ (qw a * qx b + qx a * qw b + qy a * qz b - qz a * qy b)
      (qw a * qy b - qx a * qz b + qy a * qw b + qz a * qx b)
      (qw a * qz b + qx a * qy b - qy a * qx b + qz a * qw b)
      (qw a * qw b - qx a * qx b - qy a * qy b - qz a * qz b).

(** [a * b] on quaternions: apply [a], then [b]. *)
Definition qmul (a b : LLQuaternion) : LLQuaternion := hamilton b a.
Definition conjugate (q : LLQuaternion) : LLQuaternion :=
  mkQ (- qx q) (- qy q) (- qz q) (qw q).
Definition qadd (a b : LLQuaternion) : LLQuaternion :=
  mkQ (qx a + qx b) (qy a + qy b) (qz a + qz b) (qw a + qw b).
Definition qsub (a b : LLQuaternion) : LLQuaternion :=
  mkQ (qx a - qx b) (qy a - qy b) (qz a - qz b) (qw a - qw b).
Definition qscale (k : R) (q : LLQuaternion) : LLQuaternion :=
  mkQ (k * qx q) (k * qy q) (k * qz q) (k * qw q).
Definition qnorm2 (q : LLQuaternion) : R :=
  qx q * qx q + qy q * qy q + qz q * qz q + qw q * qw q.
(** [LLQuaternion::normalize]: a quaternion too short to normalise becomes
    the identity. *)
Definition normalize (q : LLQuaternion) : LLQuaternion :=
  let mag := sqrt (qnorm2 q) in
  if Rlt_dec FP_MAG_THRESHOLD mag then qscale (/ mag) q else DEFAULT.

(** [v * q]: [v] rotated by [q]. *)
Definition vrot (v : LLVector3) (q : LLQuaternion) : LLVector3 :=
  let p := hamilton (hamilton q (mkQ (vx v) (vy v) (vz v) 0)) (conjugate q) in
  mkV (qx p) (qy p) (qz p).

(** [LLQuaternion::shortestArc(a, b)]: the half-angle construction; for
    opposite vectors a half turn about a perpendicular axis (x, else y,
    crossed with [a]). *)
Definition shortestArc (a b : LLVector3) : LLQuaternion :=
  let ab := vdot a b in
  let c := vcross a b in
  let cc := vdot c c in
  if Req_EM_T (ab * ab + cc) 0 then DEFAULT
  else if Rlt_dec 0 cc then
    let s := sqrt (ab * ab + cc) + ab in
    let m := / sqrt (cc + s * s) in
    mkQ (vx c * m) (vy c * m) (vz c * m) (s * m)
  else if Rlt_dec ab 0 then
    let px := vcross a (mkV 1 0 0) in
    let axis := vnormalize (if Rlt_dec (1 / 2) (vlength px) then px
                            else vcross a (mkV 0 1 0)) in
    mkQ (vx axis) (vy axis) (vz axis) 0
  else DEFAULT.

(** [LLQuaternion::almost_equal(a, b, tolerance)]. *)
Definition almost_equal (tolerance : R) (a b : LLQuaternion) : bool :=
  let close u v := if Rlt_dec (Rabs (u - v)) tolerance then true else false in
  (close (qx a) (qx b) && close (qy a) (qy b) && close (qz a) (qz b)
     && close (qw a) (qw b))
  || (close (qx a) (- qx b) && close (qy a) (- qy b) && close (qz a) (- qz b)
        && close (qw a) (- qw b)).

(** [VERY_SMALL_ANGLE = 0.001f * F_PI] *)
Definition VERY_SMALL_ANGLE : R := / 1000 * Q2R Angles.F_PI.

End QuatR.

(* ------------------------------------------------------------------ *)
(** ** The rotation state of a [Joint] *)

Module JointRot.
Import QuatR Flags.

(** The fields of [LLIK::Joint] that the rotation updates touch. *)
Record Joint := {
  mLocalRot : LLQuaternion;
  mRot : LLQuaternion;
  mIkFlags : Z;
  mHasParent : bool
}.

Definition localRotLocked (j : Joint) : bool := has (mIkFlags j) IK_FLAG_LOCAL_ROT_LOCKED.

Definition setWorldRot (j : Joint) (rot : LLQuaternion) : Joint :=
  {| mLocalRot := mLocalRot j; mRot := rot; mIkFlags := mIkFlags j;
     mHasParent := mHasParent j |}.

(** [Joint::setLocalRot]: nothing happens on a locked joint. *)
Definition setLocalRot (j : Joint) (new_local_rot : LLQuaternion) : Joint :=
  if localRotLocked j then j
  else {| mLocalRot := new_local_rot; mRot := mRot j; mIkFlags := mIkFlags j;
          mHasParent := mHasParent j |}.

(** [Joint::reset], given the parent's world rot when there is a parent. *)
Definition reset (j : Joint) (parent_rot : option LLQuaternion) : Joint :=
  {| mLocalRot := DEFAULT;
     mRot := match parent_rot with Some r => r | None => DEFAULT end;
     mIkFlags := mIkFlags j; mHasParent := mHasParent j |}.

(** [Joint::setParent(parent)]; [parent] is the parent's world rot. *)
Definition setParent (j : Joint) (parent : option LLQuaternion) : Joint :=
  let has_parent := match parent with Some _ => true | None => false end in
  reset {| mLocalRot := mLocalRot j; mRot := mRot j;
           mIkFlags := if has_parent then mIkFlags j else IK_FLAG_LOCAL_ROT_LOCKED;
           mHasParent := has_parent |} parent.

(** [Joint::resetFlags] *)
Definition resetFlags (j : Joint) : Joint :=
  {| mLocalRot := mLocalRot j; mRot := mRot j;
     mIkFlags := if mHasParent j then 0%Z else IK_FLAG_LOCAL_ROT_LOCKED;
     mHasParent := mHasParent j |}.

End JointRot.

(* ------------------------------------------------------------------ *)
(** ** [ElbowConstraint::enforce]: the shoulder back-rotation *)

Module Elbow.
Import QuatR JointRot.
Local Open Scope R_scope.

Definition MIN_PIVOT_LENGTH : R := / 1000000.

(** The [bend_pivot] of the shoulder/elbow/wrist triangle, falling back to
    [upper_pivot] when the arm is nearly straight. *)
Definition bend_pivot (shoulder elbow wrist upper_pivot : LLVector3) : LLVector3 :=
  let lower_arm := vnormalize (vsub wrist elbow) in
  let upper_arm := vnormalize (vsub elbow shoulder) in
  let bp := vcross upper_arm lower_arm in
  let length := vlength bp in
  if Rlt_dec length MIN_PIVOT_LENGTH then upper_pivot else vscale (/ length) bp.

(** The back-rotation of the shoulder at the end of
    [ElbowConstraint::enforce], for a shoulder with no parent (no collar
    joint): the new shoulder and whether this step set [something_changed].
    [upper_pivot] is [mPivotAxis * shoulder_joint->getWorldRot()]; the
    elbow's twist step before it does not touch the shoulder. *)
Definition shoulder_back_rotation (mPivotAxis : LLVector3) (shoulder_joint : Joint)
    (shoulder elbow wrist : LLVector3) : Joint * bool :=
  let upper_pivot := vrot mPivotAxis (mRot shoulder_joint) in
  let bp := bend_pivot shoulder elbow wrist upper_pivot in
  let shoulder_rot := mRot shoulder_joint in
  let adjustment := shortestArc upper_pivot bp in
  if negb (almost_equal VERY_SMALL_ANGLE adjustment DEFAULT) then
    let shoulder_rot' := normalize (qmul shoulder_rot adjustment) in
    let j1 := setWorldRot shoulder_joint shoulder_rot' in
    (setLocalRot j1 (mRot j1), true)
  else (shoulder_joint, false).

(** A root joint as [setParent(nullptr)] leaves it. *)
Definition root_joint : Joint :=
  {| mLocalRot := DEFAULT; mRot := DEFAULT;
     mIkFlags := Flags.IK_FLAG_LOCAL_ROT_LOCKED; mHasParent := false |}.

End Elbow.

(* ------------------------------------------------------------------ *)
(** ** [Constraint::enforce] and [SimpleCone::computeAdjustedLocalRot] *)

Module Enforce.
Import QuatR JointRot.
Local Open Scope R_scope.

Section Enforce.
Variable computeAdjustedLocalRot : LLQuaternion -> LLQuaternion.
(** [LLQuaternion::almost_equal] with its default tolerance. *)
Variable almost_equal_default : LLQuaternion -> LLQuaternion -> bool.

(** [Constraint::enforce(joint)]: the new joint and the returned flag. *)
Definition enforce (joint : Joint) : Joint * bool :=
  let local_rot := mLocalRot joint in
  let adjusted_local_rot := computeAdjustedLocalRot local_rot in
  if negb (almost_equal_default adjusted_local_rot local_rot) then
    (setLocalRot joint adjusted_local_rot, true)
  else (joint, false).
End Enforce.

(** The fields of [LLIK::SimpleCone]. *)
Record SimpleCone := {
  mForward : LLVector3;
  mCosConeAngle : R;
  mSinConeAngle : R
}.

(** [SimpleCone::SimpleCone(forward, max_angle)] *)
Definition make_simple_cone (forward : LLVector3) (max_angle : R) : SimpleCone :=
  {| mForward := vnormalize forward;
     mCosConeAngle := cos (Rabs max_angle);
     mSinConeAngle := sin (Rabs max_angle) |}.

(** [SimpleCone::computeAdjustedLocalRot] *)
Definition computeAdjustedLocalRot (c : SimpleCone) (joint_local_rot : LLQuaternion)
  : LLQuaternion :=
  let forward := vrot (mForward c) joint_local_rot in
  let forward_component := vdot forward (mForward c) in
  if Rlt_dec forward_component (mCosConeAngle c) then
    let perp := vnormalize (vsub forward (vscale forward_component (mForward c))) in
    let new_forward := vadd (vscale (mCosConeAngle c) (mForward c))
                            (vscale (mSinConeAngle c) perp) in
    let adjustment := shortestArc forward new_forward in
    normalize (qmul joint_local_rot adjustment)
  else joint_local_rot.

(** A cone of half-angle 0 about the x axis. *)
Definition cone_x0 : SimpleCone := make_simple_cone (mkV 1 0 0) 0.

(** A quarter turn about z. *)
Definition quarter_z : LLQuaternion := mkQ 0 0 (/ sqrt 2) (/ sqrt 2).

End Enforce.

(* ------------------------------------------------------------------ *)
(** ** [Joint::updateEndInward]: the rot recomputed from the children *)

Module Inward.
Import QuatR.
Local Open Scope R_scope.

(** What the averaging loop reads of a child. *)
Record Child := {
  c_active : bool;
  c_localRot : LLQuaternion;
  c_rot : LLQuaternion
}.

(** One turn of [for (auto& child : mChildren)]: the new [avg_rot], which
    is also assigned to [mRot]. *)
Definition average_turn (avg_rot : LLQuaternion) (child : Child) : LLQuaternion :=
  let child_local_rot_inv := conjugate (c_localRot child) in
  let rot := qmul child_local_rot_inv (c_rot child) in
  let avg_rot' := if Rlt_dec (qw rot) 0 then qsub avg_rot rot else qadd avg_rot rot in
  normalize avg_rot'.

Fixpoint average_loop (avg_rot mRot : LLQuaternion) (children : list Child)
  : LLQuaternion :=
  match children with
  | [] => mRot
  | child :: rest =>
      let avg_rot' := average_turn avg_rot child in
      average_loop avg_rot' avg_rot' rest
  end.

(** The tail of [updateEndInward], after the loop over the active children
    has run [updateLocalRot] and set [something_changed]: the joint's new
    [mRot].  [avg_rot] starts as [LLQuaternion()] with its real part zeroed. *)
Definition recompute_rot (something_changed : bool) (mRot : LLQuaternion)
    (mChildren : list Child) : LLQuaternion :=
  if something_changed then
    average_loop (mkQ (qx DEFAULT) (qy DEFAULT) (qz DEFAULT) 0) mRot mChildren
  else mRot.

(** The claim's average: the sign-corrected sum of
    [child.local_rot^-1 * child.rot] over the active children, normalised. *)
Definition active_average (mChildren : list Child) : LLQuaternion :=
  normalize
    (fold_left (fun acc child =>
                  let rot := qmul (conjugate (c_localRot child)) (c_rot child) in
                  if Rlt_dec (qw rot) 0 then qsub acc rot else qadd acc rot)
               (List.filter c_active mChildren) (mkQ 0 0 0 0)).

(** An active child at rest and an inactive child turned half about x. *)
Definition two_children : list Child :=
  [ {| c_active := true; c_localRot := DEFAULT; c_rot := DEFAULT |};
    {| c_active := false; c_localRot := DEFAULT; c_rot := mkQ 1 0 0 0 |} ].

End Inward.

(* ------------------------------------------------------------------ *)
(** ** [compute_clamped_angle] *)

Module Clamp.
Import Angles.
Local Open Scope Q_scope.

(** [a < b] on [F32]. *)
Definition qlt (a b : Q) : bool := negb (Qle_bool b a).

(** [max_angle + 0.5 * (F_TWO_PI - (max_angle - min_angle))] *)
Definition invalid_bisector (min_angle max_angle : Q) : Q :=
  max_angle + (1 # 2) * (F_TWO_PI - (max_angle - min_angle)).

(** [compute_clamped_angle(angle, min_angle, max_angle)] *)
Definition compute_clamped_angle (angle min_angle max_angle : Q) : Q :=
  if qlt max_angle angle || qlt angle min_angle then
    let bisector := invalid_bisector min_angle max_angle in
    let angle' := angle - inject_Z (s32_cast (angle / F_TWO_PI)) * F_TWO_PI in
    if (qlt max_angle angle' && qlt angle' bisector)
       || qlt angle' (bisector - F_TWO_PI) then max_angle
    else if qlt angle' min_angle || qlt bisector angle' then min_angle
    else angle'
  else angle.

End Clamp.

(* ------------------------------------------------------------------ *)
(** ** The setters of [LLIK::Joint::Config] and [Config::updateFrom] *)

Module ConfigOps.
Import Flags ConfigDiff.

Section Ops.
Variable Vec Quat : Type.
(** [LLQuaternion::normalize] *)
Variable normalize : Quat -> Quat.

(** The setters.  [mFlags |= bit] is [Z.lor]: [mFlags] is a [U8] and every
    bit is below 256, so the value stays in range. *)
Definition setLocalPos (c : Config Vec Quat) (pos : Vec) : Config Vec Quat :=
  Build_Config _ _ pos (mLocalRot _ _ c) (mLocalScale _ _ c) (mTargetPos _ _ c)
    (mTargetRot _ _ c) (mChainLimit _ _ c) (Z.lor (mFlags _ _ c) CONFIG_FLAG_LOCAL_POS).

Definition setLocalRot (c : Config Vec Quat) (rot : Quat) : Config Vec Quat :=
  Build_Config _ _ (mLocalPos _ _ c) (normalize rot) (mLocalScale _ _ c) (mTargetPos _ _ c)
    (mTargetRot _ _ c) (mChainLimit _ _ c) (Z.lor (mFlags _ _ c) CONFIG_FLAG_LOCAL_ROT).

Definition setLocalScale (c : Config Vec Quat) (scale : Vec) : Config Vec Quat :=
  Build_Config _ _ (mLocalPos _ _ c) (mLocalRot _ _ c) scale (mTargetPos _ _ c)
    (mTargetRot _ _ c) (mChainLimit _ _ c) (Z.lor (mFlags _ _ c) CONFIG_FLAG_LOCAL_SCALE).

Definition setTargetPos (c : Config Vec Quat) (pos : Vec) : Config Vec Quat :=
  Build_Config _ _ (mLocalPos _ _ c) (mLocalRot _ _ c) (mLocalScale _ _ c) pos
    (mTargetRot _ _ c) (mChainLimit _ _ c) (Z.lor (mFlags _ _ c) CONFIG_FLAG_TARGET_POS).

Definition setTargetRot (c : Config Vec Quat) (rot : Quat) : Config Vec Quat :=
  Build_Config _ _ (mLocalPos _ _ c) (mLocalRot _ _ c) (mLocalScale _ _ c) (mTargetPos _ _ c)
    (normalize rot) (mChainLimit _ _ c) (Z.lor (mFlags _ _ c) CONFIG_FLAG_TARGET_ROT).

Definition disableConstraint (c : Config Vec Quat) : Config Vec Quat :=
  Build_Config _ _ (mLocalPos _ _ c) (mLocalRot _ _ c) (mLocalScale _ _ c) (mTargetPos _ _ c)
    (mTargetRot _ _ c) (mChainLimit _ _ c)
    (Z.lor (mFlags _ _ c) CONFIG_FLAG_DISABLE_CONSTRAINT).

(** [Config::updateFrom(other_config)]: the new [*this]. *)
Definition updateFrom (this other_config : Config Vec Quat) : Config Vec Quat :=
  let f := mFlags _ _ other_config in
  if Z.eqb (mFlags _ _ this) f then other_config
  else
    let c1 := if has f CONFIG_FLAG_LOCAL_POS
              then setLocalPos this (mLocalPos _ _ other_config) else this in
    let c2 := if has f CONFIG_FLAG_LOCAL_ROT
              then setLocalRot c1 (mLocalRot _ _ other_config) else c1 in
    let c3 := if has f CONFIG_FLAG_TARGET_POS
              then setTargetPos c2 (mTargetPos _ _ other_config) else c2 in
    let c4 := if has f CONFIG_FLAG_TARGET_ROT
              then setTargetRot c3 (mTargetRot _ _ other_config) else c3 in
    let c5 := if has f CONFIG_FLAG_LOCAL_SCALE
              then setLocalScale c4 (mLocalScale _ _ other_config) else c4 in
    if has f CONFIG_FLAG_DISABLE_CONSTRAINT then disableConstraint c5 else c5.

End Ops.
End ConfigOps.

(* ------------------------------------------------------------------ *)
(** ** [Joint::getSingleActiveChild] *)

Module ActiveChild.
Section Single.
Variable Child : Type.
(** [child->isActive()] *)
Variable isActive : Child -> bool.

(** The loop of [getSingleActiveChild(active_child)] over [mChildren], from
    the caller's [active_child]; [None] is a null [ptr_t]. *)
Fixpoint getSingleActiveChild (mChildren : list Child) (active_child : option Child)
  : option Child :=
  match mChildren with
  | [] => active_child
  | child :: rest =>
      if isActive child then
        match active_child with
        | Some _ => None
        | None => getSingleActiveChild rest (Some child)
        end
      else getSingleActiveChild rest active_child
  end.
End Single.
End ActiveChild.

(* ------------------------------------------------------------------ *)
(** ** [Joint::lockLocalRot], [Joint::activate], [Joint::enforceConstraint] *)

Module JointLock.
Import QuatR Flags JointRot.

(** [Joint::activate] *)
Definition activate (j : Joint) : Joint :=
  {| mLocalRot := mLocalRot j; mRot := mRot j;
     mIkFlags := Z.lor (mIkFlags j) IK_FLAG_ACTIVE; mHasParent := mHasParent j |}.

(** [Joint::isActive] *)
Definition isActive (j : Joint) : bool := has (mIkFlags j) IK_FLAG_ACTIVE.

(** [Joint::lockLocalRot(local_rot)] *)
Definition lockLocalRot (j : Joint) (local_rot : LLQuaternion) : Joint :=
  let j1 := {| mLocalRot := local_rot; mRot := mRot j;
               mIkFlags := Z.lor (mIkFlags j) IK_FLAG_LOCAL_ROT_LOCKED;
               mHasParent := mHasParent j |} in
  let j2 := activate j1 in
  if mHasParent j2 then j2 else setWorldRot j2 local_rot.

Section Enforce.
Variable Constraint : Type.
(** [mConstraint->enforce] on this joint. *)
Variable enforce : Constraint -> Joint -> Joint * bool.

(** [Joint::enforceConstraint]: [mConstraint] ([None] is null) and the
    cached [mConfigFlags] are passed in. *)
Definition enforceConstraint (mConstraint : option Constraint) (mConfigFlags : Z)
    (j : Joint) : Joint * bool :=
  if negb (localRotLocked j) then
    match mConstraint with
    | Some c =>
        if negb (has mConfigFlags CONFIG_FLAG_DISABLE_CONSTRAINT) then enforce c j
        else (j, false)
    | None => (j, false)
    end
  else (j, false).
End Enforce.
End JointLock.

(* ------------------------------------------------------------------ *)
(** ** [Joint::collectTargetPositions] *)

Module Targets.
Import Flags.

Section Collect.
Variable Vec : Type.

(** What the loop reads of a child: [isActive()], [mLocalPos], [mPos]. *)
Record TChild := {
  tc_active : bool;
  tc_localPos : Vec;
  tc_pos : Vec
}.

(** [collectTargetPositions(local_targets, world_targets)]: the two vectors
    after the call.  [target_pos] is [mConfig->getTargetPos()], read only
    when [hasPosTarget()]. *)
Definition collectTargetPositions (mConfigFlags : Z) (mBone target_pos : Vec)
    (mChildren : list TChild) (local_targets world_targets : list Vec)
  : list Vec * list Vec :=
  if has mConfigFlags CONFIG_FLAG_TARGET_POS then
    (local_targets ++ [mBone], world_targets ++ [target_pos])
  else
    fold_left (fun acc child =>
                 let '(ls, ws) := acc in
                 if tc_active child then (ls ++ [tc_localPos child], ws ++ [tc_pos child])
                 else (ls, ws))
              mChildren (local_targets, world_targets).
End Collect.
End Targets.

(* ------------------------------------------------------------------ *)
(** ** [Joint::recursiveComputeLongestChainLength] *)

Module LongestChain.
Local Open Scope Q_scope.

(** A joint and its subtree as the recursion reads them: [mLocalPosLength]
    ([mLocalPos.length()]), [mBone.length()] and [mChildren]. *)
#[warnings="-register-all"]
Inductive JTree := JNode (mLocalPosLength bone_length : Q) (mChildren : list JTree).

(** [recursiveComputeLongestChainLength(length)] *)
Fixpoint recursiveComputeLongestChainLength (t : JTree) (length : Q) : Q :=
  match t with
  | JNode mLocalPosLength bone_length mChildren =>
      let length' := length + mLocalPosLength in
      match mChildren with
      | [] => length' + bone_length
      | _ =>
          fold_left (fun longest_length child =>
                       let child_length := recursiveComputeLongestChainLength child length' in
                       if Qlt_le_dec longest_length child_length then child_length
                       else longest_length)
                    mChildren length'
      end
  end.

(** The length of each root-to-leaf path of a subtree: the
    [mLocalPosLength]s along the path plus the leaf's bone. *)
Fixpoint path_lengths (t : JTree) : list Q :=
  match t with
  | JNode lp bone [] => [lp + bone]
  | JNode lp _ ch => map (Qplus lp) (flat_map path_lengths ch)
  end.

(** Every stored length is a vector length, so not negative. *)
Fixpoint lengths_nonneg (t : JTree) : bool :=
  match t with
  | JNode lp bone ch => Qle_bool 0 lp && Qle_bool 0 bone && forallb lengths_nonneg ch
  end.

(** Induction on [JTree] through the children list. *)
Fixpoint JTree_ind' (P : JTree -> Prop)
    (H : forall lp bone ch, Forall P ch -> P (JNode lp bone ch)) (t : JTree) : P t :=
  match t with
  | JNode lp bone ch =>
      H lp bone ch
        ((fix go (l : list JTree) : Forall P l :=
            match l with
            | [] => @List.Forall_nil _ P
            | c :: r => @List.Forall_cons _ P c r (JTree_ind' P H c) (go r)
            end) ch)
  end.

End LongestChain.

(* ------------------------------------------------------------------ *)
(** ** [LLIK::Solver::computeReach] *)

Module Reach.
Import Hashing.
Local Open Scope Q_scope.

Definition v3zero : Vec3 := (0, 0, 0).
Definition v3add (a b : Vec3) : Vec3 :=
  let '(ax, ay, az) := a in let '(bx, by', bz) := b in (ax + bx, ay + by', az + bz).
Definition v3neg (a : Vec3) : Vec3 := let '(ax, ay, az) := a in (- ax, - ay, - az).

(** What [computeReach] reads of a joint: its parent (by id), [getLocalPos()]
    and [getBone()].  As in [Chains], a joint's id ([getID()]) is its key in
    [mSkeleton], and a parent id without a joint is the null pointer. *)
Record RJoint := {
  rParent : option Z;
  rLocalPos : Vec3;
  rBone : Vec3
}.

Section Reach.
Variable mSkeleton : gmap Z RJoint.
Variable ancestor : Z.

(** The [while (joint)] loop from [joint] with the running [chain_reach];
    the result is [reach] ([LLVector3::zero] when the walk falls off the
    root).  On a skeleton without cycles (as [addJoint] builds them) the walk
    visits each joint at most once, so [fuel = mSkeleton.size()] never runs
    out first. *)
Fixpoint reach_loop (fuel : nat) (joint : RJoint) (chain_reach : Vec3) : Vec3 :=
  match fuel with
  | O => v3zero
  | S fuel' =>
      let chain_reach' := v3add chain_reach (rLocalPos joint) in
      match rParent joint with
      | None => v3zero
      | Some p =>
          match mSkeleton !! p with
          | None => v3zero
          | Some parent =>
              if Z.eqb p ancestor then chain_reach'
              else reach_loop fuel' parent chain_reach'
          end
      end
  end.
End Reach.

(** [computeReach(to_id, from_id)] *)
Definition computeReach (mSkeleton : gmap Z RJoint) (to_id from_id : Z) : Vec3 :=
  let '(ancestor, descendent, swapped) :=
    if Z.gtb from_id to_id then (to_id, from_id, true) else (from_id, to_id, false) in
  let reach :=
    match mSkeleton !! descendent with
    | Some joint => reach_loop mSkeleton ancestor (size mSkeleton) joint (rBone joint)
    | None => v3zero
    end in
  if swapped then v3neg reach else reach.

(** The sum of [rLocalPos] over [ids], added to [acc]. *)
Definition reach_sum (mSkeleton : gmap Z RJoint) (ids : list Z) (acc : Vec3) : Vec3 :=
  fold_left (fun acc id => match mSkeleton !! id with
                           | Some j => v3add acc (rLocalPos j)
                           | None => acc
                           end) ids acc.

(** [ids] is a walk up the parent links, in the skeleton, whose last joint
    has [ancestor] as parent and which meets [ancestor] nowhere else. *)
Fixpoint chain_to (mSkeleton : gmap Z RJoint) (ancestor : Z) (ids : list Z) : bool :=
  match ids with
  | [] => false
  | [x] =>
      match mSkeleton !! x with
      | Some j => match rParent j with Some p => Z.eqb p ancestor | None => false end
      | None => false
      end
  | x :: ((y :: _) as rest) =>
      match mSkeleton !! x with
      | Some j =>
          match rParent j with
          | Some p => Z.eqb p y && negb (Z.eqb y ancestor) && chain_to mSkeleton ancestor rest
          | None => false
          end
      | None => false
      end
  end.

End Reach.

(* ------------------------------------------------------------------ *)
(** ** [LLIK::Solver::addJoint] *)

Module SkeletonOps.
Import Chains.

(** A joint just made by [std::make_shared<Joint>(joint_info)] and
    [setParent(parent)]: no children, [mConfigFlags = 0]. *)
Definition new_joint (parent : option Z) : Joint :=
  {| mParent := parent; mChildren := []; mConfigFlags := 0 |}.

(** [Joint::addChild(child)] for a non-null child. *)
Definition addChild (j : Joint) (child : Z) : Joint :=
  {| mParent := mParent j; mChildren := mChildren j ++ [child];
     mConfigFlags := mConfigFlags j |}.

(** [addJoint(joint_id, parent_id, joint_info, constraint)] on [mSkeleton],
    whose entries hold joints (the builder stores no null pointer).
    [joint_info] and [constraint] do not touch the links. *)
Definition addJoint (mRootID : Z) (mSkeleton : gmap Z Joint) (joint_id parent_id : Z)
  : gmap Z Joint :=
  if Z.ltb joint_id 0 then mSkeleton
  else
    match mSkeleton !! joint_id with
    | Some _ => mSkeleton
    | None =>
        match mSkeleton !! parent_id with
        | None =>
            if Z.leb mRootID parent_id then mSkeleton
            else <[joint_id := new_joint None]> mSkeleton
        | Some parent =>
            <[joint_id := new_joint (Some parent_id)]>
              (<[parent_id := addChild parent joint_id]> mSkeleton)
        end
    end.

(** Parent and child links are mutual and stay inside the skeleton. *)
Definition linked (sk : gmap Z Joint) : Prop :=
  forall id j, sk !! id = Some j ->
    (forall p, mParent j = Some p ->
       exists pj, sk !! p = Some pj /\ In id (mChildren pj)) /\
    (forall c, In c (mChildren j) ->
       exists cj, sk !! c = Some cj /\ mParent cj = Some id).

(** [linked], checked entry by entry. *)
Definition linked_b (sk : gmap Z Joint) : bool :=
  forallb (fun '(id, j) =>
             match mParent j with
             | Some p => match sk !! p with
                         | Some pj => existsb (Z.eqb id) (mChildren pj)
                         | None => false
                         end
             | None => true
             end &&
             forallb (fun c => match sk !! c with
                               | Some cj => match mParent cj with
                                            | Some q => Z.eqb q id
                                            | None => false
                                            end
                               | None => false
                               end) (mChildren j))
          (map_to_list sk).

End SkeletonOps.

(* ------------------------------------------------------------------ *)
(** ** [LLIKConstraintFactory]: [create], [getConstraint],
    [processConstraintMappings], [getConstraintByName] *)

Module Factory.
Import String.
Local Open Scope string_scope.

(** [LLIK::Constraint::ConstraintType].  The header lists [NULL_CONSTRAINT]
    to [DOUBLE_LIMITED_HINGE_CONSTRAINT]; the implementation also uses
    [SHOULDER_CONSTRAINT]. *)
Inductive ConstraintType :=
| NULL_CONSTRAINT
| UNKNOWN_CONSTRAINT
| SIMPLE_CONE_CONSTRAINT
| TWIST_LIMITED_CONE_CONSTRAINT
| SHOULDER_CONSTRAINT
| ELBOW_CONSTRAINT
| KNEE_CONSTRAINT
| ACUTE_ELLIPSOIDAL_CONE_CONSTRAINT
| DOUBLE_LIMITED_HINGE_CONSTRAINT.

Definition NULL_CONSTRAINT_NAME : string := "NULL_CONSTRAINT".
Definition UNKNOWN_CONSTRAINT_NAME : string := "UNKNOWN_CONSTRAINT".
Definition SIMPLE_CONE_CONSTRAINT_NAME : string := "SIMPLE_CONE".
Definition TWIST_LIMITED_CONE_CONSTRAINT_NAME : string := "TWIST_LIMITED_CONE".
Definition SHOULDER_CONSTRAINT_NAME : string := "SHOULDER".
Definition ELBOW_CONSTRAINT_NAME : string := "ELBOW".
Definition KNEE_CONSTRAINT_NAME : string := "KNEE".
Definition ACUTE_ELLIPSOIDAL_CONE_CONSTRAINT_NAME : string := "ACUTE_ELLIPSOIDAL_CONE".
Definition DOUBLE_LIMITED_HINGE_CONSTRAINT_NAME : string := "DOUBLE_LIMITED_HINGE".

(** [constraint_type_to_name(type)], used by [Constraint::asLLSD] for
    [data["type"]]. *)
Definition constraint_type_to_name (type : ConstraintType) : string :=
  match type with
  | NULL_CONSTRAINT => NULL_CONSTRAINT_NAME
  | SIMPLE_CONE_CONSTRAINT => SIMPLE_CONE_CONSTRAINT_NAME
  | TWIST_LIMITED_CONE_CONSTRAINT => TWIST_LIMITED_CONE_CONSTRAINT_NAME
  | SHOULDER_CONSTRAINT => SHOULDER_CONSTRAINT_NAME
  | ELBOW_CONSTRAINT => ELBOW_CONSTRAINT_NAME
  | KNEE_CONSTRAINT => KNEE_CONSTRAINT_NAME
  | ACUTE_ELLIPSOIDAL_CONE_CONSTRAINT => ACUTE_ELLIPSOIDAL_CONE_CONSTRAINT_NAME
  | DOUBLE_LIMITED_HINGE_CONSTRAINT => DOUBLE_LIMITED_HINGE_CONSTRAINT_NAME
  | UNKNOWN_CONSTRAINT => UNKNOWN_CONSTRAINT_NAME
  end.

(** [std::toupper] in the classic locale: only [a]..[z] change. *)
Definition toupper (c : Ascii.ascii) : Ascii.ascii :=
  let n := Ascii.nat_of_ascii c in
  if Nat.leb 97 n && Nat.leb n 122 then Ascii.ascii_of_nat (n - 32) else c.

(** [boost::to_upper(type)] *)
Fixpoint to_upper (s : string) : string :=
  match s with
  | EmptyString => EmptyString
  | String c rest => String (toupper c) (to_upper rest)
  end.

(** [LLIKConstraintFactory::create(data)] read through the [mType] of the
    constraint it builds from [type = data["type"].asString()]: each
    subclass constructor passes its own type to [Constraint].  [None] is
    the null pointer. *)
Definition create_type (type : string) : option ConstraintType :=
  let type := to_upper type in
  if String.eqb type SIMPLE_CONE_CONSTRAINT_NAME then Some SIMPLE_CONE_CONSTRAINT
  else if String.eqb type TWIST_LIMITED_CONE_CONSTRAINT_NAME then Some TWIST_LIMITED_CONE_CONSTRAINT
  else if String.eqb type SHOULDER_CONSTRAINT_NAME then Some SHOULDER_CONSTRAINT
  else if String.eqb type ELBOW_CONSTRAINT_NAME then Some ELBOW_CONSTRAINT
  else if String.eqb type KNEE_CONSTRAINT_NAME then Some KNEE_CONSTRAINT
  else if String.eqb type ACUTE_ELLIPSOIDAL_CONE_CONSTRAINT_NAME
    then Some ACUTE_ELLIPSOIDAL_CONE_CONSTRAINT
  else if String.eqb type DOUBLE_LIMITED_HINGE_CONSTRAINT_NAME
    then Some DOUBLE_LIMITED_HINGE_CONSTRAINT
  else None.

Section Factory.
Variable Constraint LLSD : Type.
(** [LLIKConstraintFactory::create]; [None] is the null pointer. *)
Variable create : LLSD -> option Constraint.
(** [Constraint::generateHash] *)
Variable generateHash : Constraint -> Z.

(** [getConstraint(constraint_def)]: the new [mConstraints] and the
    returned pointer. *)
Definition getConstraint (mConstraints : gmap Z Constraint) (constraint_def : LLSD)
  : gmap Z Constraint * option Constraint :=
  match create constraint_def with
  | None => (mConstraints, None)
  | Some ptr =>
      let id := generateHash ptr in
      match mConstraints !! id with
      | None => (<[id := ptr]> mConstraints, Some ptr)
      | Some shared => (mConstraints, Some shared)
      end
  end.

(** [processConstraintMappings(mappings)] over the entries of the LLSD map,
    in iteration order: the new [mConstraints] and [mJointMapping].
    [std::map::insert] leaves an existing key alone. *)
Definition processConstraintMappings (mConstraints : gmap Z Constraint)
    (mJointMapping : gmap string Constraint) (mappings : list (string * LLSD))
  : gmap Z Constraint * gmap string Constraint :=
  fold_left (fun st entry =>
               let '(mc, jm) := st in
               let '(joint_name, constr_def) := entry in
               let '(mc', constraint) := getConstraint mc constr_def in
               (mc', match constraint with
                     | Some c =>
                         match jm !! joint_name with
                         | Some _ => jm
                         | None => <[joint_name := c]> jm
                         end
                     | None => jm
                     end))
            mappings (mConstraints, mJointMapping).

(** [getConstraintByName(joint_name)]; [None] is the null pointer. *)
Definition getConstraintByName (mJointMapping : gmap string Constraint)
    (joint_name : string) : option Constraint :=
  mJointMapping !! joint_name.

(** Every shared instance is stored under its own hash. *)
Definition keyed (mConstraints : gmap Z Constraint) : Prop :=
  forall id c, mConstraints !! id = Some c -> generateHash c = id.

(** [keyed], checked entry by entry. *)
Definition keyed_b (mConstraints : gmap Z Constraint) : bool :=
  forallb (fun '(id, c) => Z.eqb (generateHash c) id) (map_to_list mConstraints).

(** Every named constraint is the shared instance of its hash. *)
Definition shared_names (mConstraints : gmap Z Constraint)
    (mJointMapping : gmap string Constraint) : Prop :=
  forall n c, mJointMapping !! n = Some c -> mConstraints !! generateHash c = Some c.

(** [shared_names], checked entry by entry, for a type of constraints with
    decidable equality. *)
Definition shared_names_b {eqd : EqDecision Constraint}
    (mConstraints : gmap Z Constraint) (mJointMapping : gmap string Constraint) : bool :=
  forallb (fun '(_, c) => match mConstraints !! generateHash c with
                          | Some c' => bool_decide (c' = c)
                          | None => false
                          end) (map_to_list mJointMapping).

End Factory.
End Factory.

(* ------------------------------------------------------------------ *)
(** ** Small skeletons for the [computeReach] examples *)

Module ReachScenario.
Import Hashing Reach.
Local Open Scope Q_scope.

(** A root 0 with child 1 with child 2. *)
Definition joint0 : RJoint := {| rParent := None; rLocalPos := (1, 0, 0); rBone := (1, 0, 0) |}.
Definition joint1 : RJoint := {| rParent := Some 0%Z; rLocalPos := (0, 1, 0); rBone := (0, 0, 1) |}.
Definition joint2 : RJoint := {| rParent := Some 1%Z; rLocalPos := (0, 0, 2); rBone := (3, 0, 0) |}.
Definition skeleton : gmap Z RJoint :=
  <[2%Z := joint2]> (<[1%Z := joint1]> (<[0%Z := joint0]> ∅)).
End ReachScenario.

(* ================================================================== *)
(** * Theorems *)

(** Small checks on the angle helpers. *)
Example remove_multiples_pos :
  Angles.remove_multiples_of_two_pi (7 # 1) == 7 - Angles.F_TWO_PI.
Proof. vm_compute. reflexivity. Qed.

Example remove_multiples_neg :
  Angles.remove_multiples_of_two_pi (-4 # 1) == -4 # 1.
Proof. vm_compute. reflexivity. Qed.

(** The swap of [compute_angle_limits] always leaves the limits ordered. *)
Lemma compute_angle_limits_ordered (a b : Q) :
  (fst (Angles.compute_angle_limits a b) <= snd (Angles.compute_angle_limits a b))%Q.
Proof.
  unfold Angles.compute_angle_limits.
  destruct (Qlt_le_dec _ _) as [H|H]; simpl.
  - apply Qlt_le_weak. exact H.
  - exact H.
Qed.

(** C8 (code bug).  [compute_angle_limits(-4, 0)] leaves the minimum at
    -4, below -pi: [remove_multiples_of_two_pi] truncates toward zero, so a
    negative angle stays in (-2 pi, 0] and is never brought into [-pi, pi]. *)
Theorem compute_angle_limits_negative_out_of_range :
  let '(mn, mx) := Angles.compute_angle_limits (-4 # 1) 0 in
  (mn == -4 # 1 /\ mx == 0 /\ mn < - Angles.F_PI)%Q.
Proof. vm_compute. repeat split; reflexivity. Qed.

Section SolveLoopFacts.
Import SolveLoop.
Variable State : Type.
Variable solveOnce : State -> State * Q.
Variable acc : Q.
Variable s0 : State.

Lemma solve_loop_spec (fuel : nat) :
  forall (loop : nat) (e : Q) (st : State),
  (fuel + loop = MAX_SOLVER_ITERATIONS)%nat ->
  passes State solveOnce loop s0 = (st, e) ->
  (forall k, (MIN_SOLVER_ITERATIONS <= k < loop)%nat ->
     ~ (snd (passes State solveOnce k s0) <= acc)%Q) ->
  let '(n, err, st') := solve_loop State solveOnce acc fuel loop e st in
  (MIN_SOLVER_ITERATIONS <= n <= MAX_SOLVER_ITERATIONS)%nat /\
  passes State solveOnce n s0 = (st', err) /\
  ((n < MAX_SOLVER_ITERATIONS)%nat -> (err <= acc)%Q) /\
  (forall k, (MIN_SOLVER_ITERATIONS <= k < n)%nat ->
     ~ (snd (passes State solveOnce k s0) <= acc)%Q).
Proof.
  induction fuel as [|fuel IH]; intros loop e st Hf Hp Hk; simpl.
  - unfold MAX_SOLVER_ITERATIONS, MIN_SOLVER_ITERATIONS in *.
    repeat split; try lia; auto.
  - destruct (loop_guard acc loop e) eqn:G.
    + destruct (solveOnce st) as [s' e'] eqn:E.
      apply IH.
      * lia.
      * simpl. rewrite Hp. simpl. exact E.
      * intros k Hk'.
        destruct (Nat.eq_dec k loop) as [->|Hne].
        -- rewrite Hp. simpl.
           unfold loop_guard in G.
           apply orb_true_iff in G as [G|G].
           ++ apply Nat.ltb_lt in G. lia.
           ++ apply andb_true_iff in G as [_ G].
              apply negb_true_iff in G. intro Hle.
              apply Qle_bool_iff in Hle. congruence.
        -- apply Hk. lia.
    + unfold loop_guard in G.
      apply orb_false_iff in G as [G1 G2].
      apply Nat.ltb_ge in G1.
      repeat split; try lia; auto.
      intro Hlt. apply andb_false_iff in G2 as [G2|G2].
      * apply Nat.ltb_ge in G2. lia.
      * apply negb_false_iff in G2. apply Qle_bool_iff. exact G2.
Qed.

End SolveLoopFacts.

(** C3.  [solve()] runs between MIN_SOLVER_ITERATIONS (4) and
    MAX_SOLVER_ITERATIONS (16) passes of [solveOnce]; it stops before 16
    passes only when the error of the last pass is at most the acceptable
    error, it never stops at a pass count of 4 or more whose error exceeds
    it, and it returns the error measured by the last pass it ran. *)
Theorem solve_iterations_bounded (State : Type) (solveOnce : State -> State * Q)
    (acc : Q) (s : State) :
  let '(n, err, s') := SolveLoop.solve State solveOnce acc s in
  (SolveLoop.MIN_SOLVER_ITERATIONS <= n <= SolveLoop.MAX_SOLVER_ITERATIONS)%nat /\
  SolveLoop.passes State solveOnce n s = (s', err) /\
  ((n < SolveLoop.MAX_SOLVER_ITERATIONS)%nat -> (err <= acc)%Q) /\
  (forall k, (SolveLoop.MIN_SOLVER_ITERATIONS <= k < n)%nat ->
     ~ (snd (SolveLoop.passes State solveOnce k s) <= acc)%Q).
Proof.
  unfold SolveLoop.solve.
  apply (solve_loop_spec State solveOnce acc s SolveLoop.MAX_SOLVER_ITERATIONS 0).
  - reflexivity.
  - reflexivity.
  - intros k Hk. unfold SolveLoop.MIN_SOLVER_ITERATIONS in Hk. lia.
Qed.

Section ConfigDiffFacts.
Import ConfigDiff.
Variable Vec Quat : Type.
Variable dist_vec : Vec -> Vec -> Q.
Variable almost_equal : Quat -> Quat -> bool.
Variable mAcceptableError : Q.

Lemma entry_changed_false_iff (o n : Config Vec Quat) :
  entry_changed Vec Quat dist_vec almost_equal mAcceptableError o n = false <->
  within_tolerance Vec Quat dist_vec almost_equal mAcceptableError o n.
Proof.
  unfold entry_changed, within_tolerance, pos_changed.
  setoid_rewrite <- Qle_bool_iff.
  destruct (Z.eqb_spec (mFlags _ _ o) (mFlags _ _ n)) as [Heq|Hne]; simpl.
  - destruct (Flags.has (mFlags _ _ o) Flags.CONFIG_FLAG_TARGET_POS);
    destruct (Qle_bool (Qabs (dist_vec (mTargetPos _ _ o) (mTargetPos _ _ n)))
                mAcceptableError);
    destruct (Flags.has (mFlags _ _ o) Flags.CONFIG_FLAG_TARGET_ROT);
    destruct (almost_equal (mTargetRot _ _ o) (mTargetRot _ _ n));
    destruct (Flags.has (mFlags _ _ o) Flags.CONFIG_FLAG_LOCAL_POS);
    destruct (Qle_bool (Qabs (dist_vec (mLocalPos _ _ o) (mLocalPos _ _ n)))
                mAcceptableError);
    destruct (Flags.has (mFlags _ _ o) Flags.CONFIG_FLAG_LOCAL_ROT);
    destruct (almost_equal (mLocalRot _ _ o) (mLocalRot _ _ n));
    simpl; intuition discriminate.
  - split; [discriminate|]. intros [H _]. contradiction.
Qed.

Lemma scan_false_iff (l : list (Z * Config Vec Quat)) (configs : gmap Z (Config Vec Quat)) :
  scan Vec Quat dist_vec almost_equal mAcceptableError l configs = false <->
  Forall (fun '(k, o) => exists n, configs !! k = Some n /\
            within_tolerance Vec Quat dist_vec almost_equal mAcceptableError o n) l.
Proof.
  induction l as [|[k o] l IH]; simpl.
  - split; auto.
  - rewrite Forall_cons.
    destruct (configs !! k) as [n|] eqn:Hk.
    + destruct (entry_changed Vec Quat dist_vec almost_equal mAcceptableError o n) eqn:He.
      * split; [discriminate|]. intros [[n' [Hn' Hw]] _].
        simpl in Hn'. assert (n' = n) as -> by congruence.
        apply entry_changed_false_iff in Hw. congruence.
      * rewrite IH. split.
        -- intros Hf. split; [|exact Hf]. exists n. split; [first [exact Hk | reflexivity]|].
           apply entry_changed_false_iff. exact He.
        -- intros [_ Hf]. exact Hf.
    + split; [discriminate|]. intros [[n' [Hn' _]] _]. congruence.
Qed.

End ConfigDiffFacts.

(** C1.  [updateJointConfigs] returns [false] exactly when the new map has
    the same joint ids as the cached one and every entry has the same flags
    and, for each configured target/local position and rotation, is within
    [mAcceptableError] (positions) or [almost_equal] (rotations); the cached
    map becomes the new map when it returns [true] and is kept otherwise. *)
Theorem updateJointConfigs_diff (Vec Quat : Type) (dist_vec : Vec -> Vec -> Q)
    (almost_equal : Quat -> Quat -> bool) (mAcceptableError : Q)
    (mJointConfigs configs : gmap Z (ConfigDiff.Config Vec Quat)) :
  let '(changed, cache) :=
    ConfigDiff.updateJointConfigs Vec Quat dist_vec almost_equal mAcceptableError
      mJointConfigs configs in
  (changed = false <->
     dom configs = dom mJointConfigs /\
     (forall k o n, mJointConfigs !! k = Some o -> configs !! k = Some n ->
        ConfigDiff.within_tolerance Vec Quat dist_vec almost_equal
          mAcceptableError o n)) /\
  cache = (if changed then configs else mJointConfigs).
Proof.
  unfold ConfigDiff.updateJointConfigs.
  split; [|reflexivity].
  destruct (Nat.eqb_spec (size configs) (size mJointConfigs)) as [Hs|Hs].
  - rewrite scan_false_iff, Forall_forall.
    split.
    + intros Hall.
      assert (forall k o, mJointConfigs !! k = Some o ->
                exists n, configs !! k = Some n /\
                  ConfigDiff.within_tolerance Vec Quat dist_vec almost_equal
                    mAcceptableError o n) as Hall'.
      { intros k o Ho. apply (Hall (k, o)). apply elem_of_map_to_list. exact Ho. }
      split.
      * symmetry. apply set_subseteq_size_eq.
        -- intros k. rewrite !elem_of_dom. intros [o Ho].
           destruct (Hall' k o Ho) as [n [Hn _]]. eauto.
        -- rewrite !size_dom. lia.
      * intros k o n Ho Hn. destruct (Hall' k o Ho) as [n' [Hn' Hw]].
        congruence.
    + intros [Hdom Hall] [k o] Hin. apply elem_of_map_to_list in Hin.
      assert (is_Some (configs !! k)) as [n Hn].
      { apply elem_of_dom. rewrite Hdom. apply elem_of_dom. eauto. }
      exists n. split; [exact Hn|]. eapply Hall; eauto.
  - split; [discriminate|]. intros [Hdom _]. exfalso. apply Hs.
    rewrite <- !size_dom, Hdom. reflexivity.
Qed.

Example buildChain_fork :
  Chains.buildChain ChainScenarios.fork_solver 2 [] ∅ 255 ∅ =
  ([2; 1]%Z, {[1%Z]}, {[2%Z; 1%Z]}).
Proof. vm_compute. reflexivity. Qed.

(** C2 (counterexample).  With a non-empty sub-base whitelist that does not
    name joint 1, the walk from the targeted joint 2 does not stop at joint 1
    although it has two children, and 1 is not queued as a sub-base; and
    with a chain limit of 1 the walk stops at once, before reaching the
    fork at joint 1. *)
Lemma buildChain_stop_rule_counterexample :
  (let '(chain, sub_bases, _) :=
     Chains.buildChain ChainScenarios.fork_solver_whitelist 2 [] ∅ 255 ∅ in
   chain = [2; 1; 0]%Z /\ bool_decide (1%Z ∈ sub_bases) = false) /\
  (let '(chain, sub_bases, _) :=
     Chains.buildChain ChainScenarios.fork_solver 2 [] ∅ 1 ∅ in
   chain = [2%Z] /\ bool_decide (1%Z ∈ sub_bases) = false) /\
  option_map Chains.getNumChildren (ChainScenarios.fork_skeleton !! 1%Z) = Some 2%nat.
Proof. vm_compute. repeat split; reflexivity. Qed.

Section ChainFacts.
Import Chains.
Variable s : Solver.

Lemma walk_spec (fuel : nat) :
  forall (start : option Z) (chain : list Z) (sb act : gset Z),
  let '(c, sb', act') := walk s fuel start chain sb act in
  exists ext,
    c = chain ++ ext /\ up_path s start ext /\ (length ext <= fuel)%nat /\
    act' = list_to_set ext ∪ act /\
    ((match last ext with Some a => stop_at s a <> None | None => False end) \/
     length ext = fuel \/ ~ is_joint s (after s start ext)) /\
    sb' = match last ext with
          | Some a => if is_sub_base_stop (stop_at s a) then {[a]} ∪ sb else sb
          | None => sb
          end.
Proof.
  induction fuel as [|fuel IH]; intros start chain sb act; simpl.
  - exists []. rewrite app_nil_r.
    refine (conj eq_refl (conj I (conj _ (conj _ (conj _ eq_refl))))).
    + simpl; lia.
    + simpl; set_solver.
    + right; left; reflexivity.
  - destruct start as [jid|].
    2:{ exists []. rewrite app_nil_r.
        refine (conj eq_refl (conj I (conj _ (conj _ (conj _ eq_refl))))).
        + simpl; lia.
        + simpl; set_solver.
        + right; right. simpl. tauto. }
    destruct (mSkeleton s !! jid) as [j|] eqn:Hj.
    2:{ exists []. rewrite app_nil_r.
        refine (conj eq_refl (conj I (conj _ (conj _ (conj _ eq_refl))))).
        + simpl; lia.
        + simpl; set_solver.
        + right; right. unfold after, is_joint; simpl. rewrite Hj.
          intros [? H]; discriminate. }
    assert (Hstop : stop_at s jid = stop_check s jid j)
      by (unfold stop_at; rewrite Hj; reflexivity).
    assert (Hpar : parent_of s jid = mParent j)
      by (unfold parent_of; rewrite Hj; reflexivity).
    destruct (stop_check s jid j) as [k|] eqn:Hs.
    + assert (Hup : up_path s (Some jid) [jid]).
      { simpl. split; [reflexivity|]. split; [eauto|].
        split; [intros H; contradiction|exact I]. }
      assert (Hact : {[jid]} ∪ act = list_to_set [jid] ∪ act) by (simpl; set_solver).
      assert (Hend : stop_at s jid <> None) by (rewrite Hstop; discriminate).
      destruct k; exists [jid];
        (refine (conj eq_refl (conj Hup (conj _ (conj Hact (conj _ _)))));
         [simpl; lia | left; exact Hend | simpl; rewrite Hstop; reflexivity]).
    + specialize (IH (mParent j) (chain ++ [jid]) sb ({[jid]} ∪ act)).
      destruct (walk s fuel (mParent j) (chain ++ [jid]) sb ({[jid]} ∪ act))
        as [[c sb'] act'].
      destruct IH as (ext & Hc & Hup & Hlen & Hact & Hend & Hsb).
      exists (jid :: ext).
      split; [rewrite Hc, <- app_assoc; reflexivity|].
      split.
      { simpl. rewrite Hpar. split; [reflexivity|]. split; [eauto|].
        split; [intros _; exact Hstop|exact Hup]. }
      split; [simpl; lia|].
      split; [rewrite Hact; simpl; set_solver|].
      destruct ext as [|y r].
      * simpl in Hend, Hsb |- *. rewrite Hstop. simpl.
        split; [|exact Hsb].
        destruct Hend as [[]|[Hend|Hend]]; [right; left; lia|].
        right; right. unfold after in *; simpl in *. rewrite Hpar. exact Hend.
      * rewrite last_cons_cons.
        unfold after in *. rewrite last_cons_cons.
        split; [|exact Hsb].
        destruct Hend as [Hend|[Hend|Hend]];
          [left; exact Hend | right; left; simpl in *; lia |].
        right; right. destruct (last (y :: r)) as [z|] eqn:HL; [exact Hend|].
        apply last_None in HL. discriminate.
Qed.

End ChainFacts.

Lemma stop_check_sub_base_iff (s : Chains.Solver) (a : Z) (j : Chains.Joint) :
  Chains.stop_check s a j = Some Chains.StopSubBase <->
  Chains.isSubRoot s a = false /\ a <> Chains.mRootID s /\
  Chains.hasPosTarget j = false /\
  (if bool_decide (Chains.mSubBaseIds s = ∅)
   then (1 < Chains.getNumChildren j)%nat else a ∈ Chains.mSubBaseIds s).
Proof.
  unfold Chains.stop_check, Chains.isSubBase.
  destruct (Chains.isSubRoot s a); [split; [discriminate|intros [H _]; discriminate]|].
  destruct (Z.eqb_spec a (Chains.mRootID s)) as [He|He];
    [split; [discriminate|intros [_ [H _]]; contradiction]|].
  destruct (Chains.hasPosTarget j); [split; [discriminate|intros (_ & _ & H & _); discriminate]|].
  destruct (bool_decide (Chains.mSubBaseIds s = ∅)) eqn:Hemp.
  - apply bool_decide_eq_true in Hemp. rewrite Hemp.
    rewrite bool_decide_eq_false_2 by set_solver. rewrite orb_false_r. simpl.
    destruct (Nat.ltb_spec 1 (Chains.getNumChildren j)); simpl.
    + split; auto.
    + split; [discriminate|]. intros (_ & _ & _ & H'). lia.
  - simpl. destruct (bool_decide_reflect (a ∈ Chains.mSubBaseIds s)) as [Hin|Hin].
    + split; auto.
    + split; [discriminate|]. intros (_ & _ & _ & H'). contradiction.
Qed.

(** C2 (amended).  [buildChain] from a seed joint returns the seed followed
    by a walk up the parent links ([up_path]: each joint is the parent of the
    previous one, and no stop check fires before the last); every chain
    joint is activated; the chain has at most [max 1 chain_length] joints;
    the walk ends at a joint where a stop check fires (sub-root, root id,
    position target, sub-base), or because the chain reached
    [chain_length], or because there is no parent joint left; the stopping
    joint is queued in [sub_bases] exactly when its stop is the sub-base
    one.  The sub-base stop fires at a joint that is not a sub-root, not the
    root id and not position-targeted, and that is a whitelisted id when the
    whitelist is non-empty, or has more than one child when it is empty. *)
Theorem buildChain_walk (s : Chains.Solver) (joint : Z) (sub_bases active : gset Z)
    (chain_length : nat) :
  (let '(chain, sub_bases', active') :=
     Chains.buildChain s joint [] sub_bases chain_length active in
   exists ext,
     chain = joint :: ext /\
     Chains.up_path s (Chains.parent_of s joint) ext /\
     (length chain <= Nat.max 1 chain_length)%nat /\
     active' = list_to_set chain ∪ active /\
     ((match last ext with
       | Some a => Chains.stop_at s a <> None
       | None => False end) \/
      (chain_length <= length chain)%nat \/
      ~ Chains.is_joint s (Chains.after s (Chains.parent_of s joint) ext)) /\
     sub_bases' =
       match last ext with
       | Some a =>
           if Chains.is_sub_base_stop (Chains.stop_at s a)
           then {[a]} ∪ sub_bases else sub_bases
       | None => sub_bases
       end) /\
  (forall a j, Chains.mSkeleton s !! a = Some j ->
     Chains.stop_check s a j = Some Chains.StopSubBase <->
     Chains.isSubRoot s a = false /\ a <> Chains.mRootID s /\
     Chains.hasPosTarget j = false /\
     (if bool_decide (Chains.mSubBaseIds s = ∅)
      then (1 < Chains.getNumChildren j)%nat else a ∈ Chains.mSubBaseIds s)).
Proof.
  split; [|intros a j _; apply stop_check_sub_base_iff].
  unfold Chains.buildChain. simpl.
  pose proof (walk_spec s (chain_length - 1) (Chains.parent_of s joint) [joint]
                sub_bases ({[joint]} ∪ active)) as W.
  destruct (Chains.walk s (chain_length - 1) (Chains.parent_of s joint) [joint]
              sub_bases ({[joint]} ∪ active)) as [[c sb'] act'].
  destruct W as (ext & Hc & Hup & Hlen & Hact & Hend & Hsb).
  exists ext. simpl in Hc.
  split; [exact Hc|]. split; [exact Hup|].
  subst c. simpl.
  split; [lia|].
  split; [rewrite Hact; simpl; set_solver|].
  split; [|exact Hsb].
  destruct Hend as [H|[H|H]]; [left; exact H|right; left; lia|right; right; exact H].
Qed.

(** C10 (code bug).  A config map with a position target on joint 5, for a
    skeleton holding only the root 0: [getJointWorldRot 5] returns the
    default rotation and chain building skips joint 5, but
    [measureMaxError] (run by every pass of [solve]) dereferences the null
    pointer that [mSkeleton[5]] inserts. *)
Theorem measureMaxError_unknown_joint_faults (Vec Quat Joint : Type)
    (dist_vec : Vec -> Vec -> Q) (computeWorldEndPos : Joint -> Vec)
    (getWorldRot : Joint -> Quat) (default_rot : Quat)
    (root : Joint) (v : Vec) (q : Quat) :
  let sk : Lookups.skeleton Joint := {[0%Z := Some root]} in
  let cfg := {| ConfigDiff.mLocalPos := v; ConfigDiff.mLocalRot := q;
                ConfigDiff.mLocalScale := v; ConfigDiff.mTargetPos := v;
                ConfigDiff.mTargetRot := q; ConfigDiff.mChainLimit := 255;
                ConfigDiff.mFlags := Flags.CONFIG_FLAG_TARGET_POS |} in
  let configs : gmap Z (ConfigDiff.Config Vec Quat) := {[5%Z := cfg]} in
  Lookups.getJointWorldRot Quat Joint getWorldRot default_rot sk 5 = Some default_rot /\
  Lookups.rebuild_visited Vec Quat Joint sk configs = [] /\
  Lookups.measureMaxError Vec Quat Joint dist_vec computeWorldEndPos sk 0 configs = None.
Proof.
  intros sk cfg configs.
  split; [reflexivity|].
  unfold Lookups.rebuild_visited, Lookups.measureMaxError, configs.
  rewrite map_to_list_singleton. split; reflexivity.
Qed.

(** C9 (code bug).  [AcuteEllipsoidalCone::generateHash] never combines
    [mXLeft].  Two cones that differ only in the left extent (1 and 2) hash
    over the same inputs and so have the same hash, whatever [hash_combine]
    is.  The factory then returns the first instance for the second
    definition, although their projections differ
    ([mQuadrantScales[1]] is 1 against 1/2). *)
Theorem acute_cone_hash_ignores_left (hash_combine : Z -> Hashing.HashItem -> Z) :
  let c1 := Hashing.cone_with_left 1 in
  let c2 := Hashing.cone_with_left 2 in
  Hashing.hash_inputs c1 = Hashing.hash_inputs c2 /\
  Hashing.generateHash hash_combine c1 = Hashing.generateHash hash_combine c2 /\
  snd (Hashing.getConstraint hash_combine
         (fst (Hashing.getConstraint hash_combine ∅ c1)) c2) = c1 /\
  c1 <> c2 /\
  ~ (Hashing.quadrant_scale_1 c1 == Hashing.quadrant_scale_1 c2)%Q.
Proof.
  intros c1 c2.
  assert (Hin : Hashing.hash_inputs c1 = Hashing.hash_inputs c2) by reflexivity.
  assert (Hh : Hashing.generateHash hash_combine c1 = Hashing.generateHash hash_combine c2)
    by (unfold Hashing.generateHash; rewrite Hin; reflexivity).
  split; [exact Hin|]. split; [exact Hh|]. split.
  - unfold Hashing.getConstraint. rewrite lookup_empty. cbn [fst snd].
    rewrite <- Hh, lookup_insert. destruct (decide _) as [_|Hne]; [reflexivity|].
    exfalso. exact (Hne eq_refl).
  - split.
    + intros Heq. assert (Hl : Hashing.mXLeft c1 = Hashing.mXLeft c2) by (rewrite Heq; reflexivity).
      discriminate Hl.
    + vm_compute. discriminate.
Qed.

(** ** Facts about the quaternion kit *)

Module QuatFacts.
Import QuatR.
Local Open Scope R_scope.

Lemma sqrt2_sq : sqrt 2 * sqrt 2 = 2.
Proof. apply sqrt_sqrt. lra. Qed.

Lemma sqrt2_pos : 0 < sqrt 2.
Proof. apply sqrt_lt_R0. lra. Qed.

Lemma inv_sqrt2_sq : / sqrt 2 * / sqrt 2 = 1 / 2.
Proof.
  rewrite <- Rinv_mult, sqrt2_sq. lra.
Qed.

Lemma inv_sqrt2_pos : 0 < / sqrt 2.
Proof. apply Rinv_0_lt_compat, sqrt2_pos. Qed.

Lemma inv_sqrt2_gt_half : 1 / 2 < / sqrt 2.
Proof.
  pose proof inv_sqrt2_sq. pose proof inv_sqrt2_pos. nra.
Qed.

Lemma normalize_unit (q : LLQuaternion) : qnorm2 q = 1 -> normalize q = q.
Proof.
  intros H. unfold normalize. rewrite H, sqrt_1.
  destruct (Rlt_dec FP_MAG_THRESHOLD 1) as [_|n].
  - destruct q; unfold qscale; cbn. rewrite Rinv_1. f_equal; ring.
  - exfalso. apply n. unfold FP_MAG_THRESHOLD. lra.
Qed.

Lemma normalize_two (q : LLQuaternion) :
  qnorm2 q = 2 -> normalize q = qscale (/ sqrt 2) q.
Proof.
  intros H. unfold normalize. rewrite H.
  destruct (Rlt_dec FP_MAG_THRESHOLD (sqrt 2)) as [_|n]; [reflexivity|].
  exfalso. apply n. pose proof sqrt2_sq. pose proof sqrt2_pos.
  unfold FP_MAG_THRESHOLD. nra.
Qed.

Lemma vnormalize_unit (v : LLVector3) : vdot v v = 1 -> vnormalize v = v.
Proof.
  intros H. unfold vnormalize, vlength. rewrite H, sqrt_1.
  destruct (Rlt_dec FP_MAG_THRESHOLD 1) as [_|n].
  - destruct v; unfold vscale; cbn. rewrite Rinv_1. f_equal; ring.
  - exfalso. apply n. unfold FP_MAG_THRESHOLD. lra.
Qed.

Lemma qmul_conj_default (q : LLQuaternion) : qmul (conjugate DEFAULT) q = q.
Proof. destruct q; unfold qmul, hamilton, conjugate, DEFAULT; cbn. f_equal; ring. Qed.

Lemma qmul_default_l (q : LLQuaternion) : qmul DEFAULT q = q.
Proof. destruct q; unfold qmul, hamilton, DEFAULT; cbn. f_equal; ring. Qed.

Lemma vrot_default (v : LLVector3) : vrot v DEFAULT = v.
Proof. destruct v; unfold vrot, hamilton, conjugate, DEFAULT; cbn. f_equal; ring. Qed.

Lemma shortestArc_perpendicular_unit (a b : LLVector3) :
  vdot a b = 0 -> vdot (vcross a b) (vcross a b) = 1 ->
  shortestArc a b =
  mkQ (vx (vcross a b) * / sqrt 2) (vy (vcross a b) * / sqrt 2)
      (vz (vcross a b) * / sqrt 2) (/ sqrt 2).
Proof.
  intros Hab Hcc. unfold shortestArc. rewrite Hab, Hcc.
  destruct (Req_EM_T (0 * 0 + 1) 0) as [e|_]; [lra|].
  destruct (Rlt_dec 0 1) as [_|n]; [|lra].
  replace (0 * 0 + 1) with 1 by ring. rewrite sqrt_1.
  replace (1 + (1 + 0) * (1 + 0)) with 2 by ring.
  f_equal; ring.
Qed.

Lemma VERY_SMALL_ANGLE_lt_half : VERY_SMALL_ANGLE < 1 / 2.
Proof. unfold VERY_SMALL_ANGLE, Angles.F_PI, Q2R. cbn. lra. Qed.

Lemma almost_equal_refl (tolerance : R) :
  0 < tolerance -> forall q, almost_equal tolerance q q = true.
Proof.
  intros Ht q. unfold almost_equal. rewrite !Rminus_diag, Rabs_R0.
  destruct (Rlt_dec 0 tolerance) as [_|n]; [reflexivity|lra].
Qed.

End QuatFacts.

Local Open Scope R_scope.

(** C7 (code bug).  When a child's constraint fired, [updateEndInward]
    averages [child.local_rot^-1 * child.rot] over all of [mChildren],
    inactive ones included.  With one active child at rest and one inactive
    child turned half about x, the recomputed rot has x component
    [1/sqrt 2]; the average over the active children is the identity. *)
Theorem updateEndInward_average_includes_inactive :
  QuatR.qx (Inward.recompute_rot true QuatR.DEFAULT Inward.two_children) = / sqrt 2 /\
  Inward.active_average Inward.two_children = QuatR.DEFAULT /\
  Inward.recompute_rot true QuatR.DEFAULT Inward.two_children
    <> Inward.active_average Inward.two_children.
Proof.
  assert (R1 : Inward.recompute_rot true QuatR.DEFAULT Inward.two_children
               = QuatR.mkQ (/ sqrt 2) 0 0 (/ sqrt 2)).
  { unfold Inward.recompute_rot, Inward.two_children. cbn [Inward.average_loop].
    unfold Inward.average_turn at 2. cbn [Inward.c_localRot Inward.c_rot].
    rewrite QuatFacts.qmul_conj_default. cbn [QuatR.qw QuatR.DEFAULT].
    destruct (Rlt_dec 1 0) as [e|_]; [lra|].
    rewrite QuatFacts.normalize_unit
      by (unfold QuatR.qnorm2, QuatR.qadd, QuatR.DEFAULT; cbn; ring).
    unfold Inward.average_turn. cbn [Inward.c_localRot Inward.c_rot].
    rewrite QuatFacts.qmul_conj_default. cbn [QuatR.qw].
    destruct (Rlt_dec 0 0) as [e|_]; [lra|].
    rewrite QuatFacts.normalize_two
      by (unfold QuatR.qnorm2, QuatR.qadd, QuatR.DEFAULT; cbn; ring).
    unfold QuatR.qscale, QuatR.qadd, QuatR.DEFAULT; cbn. f_equal; ring. }
  assert (A1 : Inward.active_average Inward.two_children = QuatR.DEFAULT).
  { unfold Inward.active_average, Inward.two_children. cbn [List.filter Inward.c_active fold_left].
    cbn [Inward.c_localRot Inward.c_rot].
    rewrite QuatFacts.qmul_conj_default. cbn [QuatR.qw QuatR.DEFAULT].
    destruct (Rlt_dec 1 0) as [e|_]; [lra|].
    rewrite QuatFacts.normalize_unit
      by (unfold QuatR.qnorm2, QuatR.qadd; cbn; ring).
    unfold QuatR.qadd, QuatR.DEFAULT; cbn. f_equal; ring. }
  rewrite R1, A1. split; [reflexivity|]. split; [reflexivity|].
  intros H. pose proof QuatFacts.inv_sqrt2_pos.
  assert (Hx : / sqrt 2 = 0) by (apply (f_equal QuatR.qx) in H; exact H). lra.
Qed.

(** C4 (code bug).  [setParent(nullptr)] and [resetFlags] lock the root's
    local rot, and [setLocalRot] on a locked joint does nothing.  So when
    [ElbowConstraint::enforce] back-rotates a shoulder that is the root
    (no collar joint), it sets the root's world rot, and the
    [setLocalRot(getWorldRot())] that follows is dropped.  Take an elbow
    pivot about y, a root at rest, and the arm shoulder (0,0,0), elbow
    (1,0,0), wrist (1,1,0).  The root's world rot becomes a quarter turn
    about x, while its local rot stays the identity. *)
Theorem root_world_rot_diverges_after_elbow_enforce :
  (forall j, JointRot.localRotLocked (JointRot.setParent j None) = true) /\
  (forall j, JointRot.localRotLocked (JointRot.resetFlags j) = negb (JointRot.mHasParent j)) /\
  (forall j q, JointRot.localRotLocked j = true -> JointRot.setLocalRot j q = j) /\
  let result := Elbow.shoulder_back_rotation (QuatR.mkV 0 1 0) Elbow.root_joint
                  (QuatR.mkV 0 0 0) (QuatR.mkV 1 0 0) (QuatR.mkV 1 1 0) in
  snd result = true /\
  JointRot.mLocalRot (fst result) = QuatR.DEFAULT /\
  JointRot.mRot (fst result) = QuatR.mkQ (/ sqrt 2) 0 0 (/ sqrt 2) /\
  JointRot.mRot (fst result) <> JointRot.mLocalRot (fst result).
Proof.
  split; [intros j; reflexivity|].
  split; [intros [l r f []]; reflexivity|].
  split; [intros j q H; unfold JointRot.setLocalRot; rewrite H; reflexivity|].
  assert (BP : Elbow.bend_pivot (QuatR.mkV 0 0 0) (QuatR.mkV 1 0 0) (QuatR.mkV 1 1 0)
                 (QuatR.mkV 0 1 0) = QuatR.mkV 0 0 1).
  { unfold Elbow.bend_pivot. cbv zeta.
    assert (E1 : QuatR.vsub (QuatR.mkV 1 1 0) (QuatR.mkV 1 0 0) = QuatR.mkV 0 1 0)
      by (unfold QuatR.vsub; cbn; f_equal; ring).
    assert (E2 : QuatR.vsub (QuatR.mkV 1 0 0) (QuatR.mkV 0 0 0) = QuatR.mkV 1 0 0)
      by (unfold QuatR.vsub; cbn; f_equal; ring).
    rewrite E1, E2.
    rewrite !QuatFacts.vnormalize_unit by (unfold QuatR.vdot; cbn; ring).
    assert (E3 : QuatR.vcross (QuatR.mkV 1 0 0) (QuatR.mkV 0 1 0) = QuatR.mkV 0 0 1)
      by (unfold QuatR.vcross; cbn; f_equal; ring).
    rewrite E3. unfold QuatR.vlength.
    replace (QuatR.vdot (QuatR.mkV 0 0 1) (QuatR.mkV 0 0 1)) with 1
      by (unfold QuatR.vdot; cbn; ring).
    rewrite sqrt_1.
    destruct (Rlt_dec 1 Elbow.MIN_PIVOT_LENGTH) as [h|_].
    { unfold Elbow.MIN_PIVOT_LENGTH in h. lra. }
    unfold QuatR.vscale; cbn. rewrite Rinv_1. f_equal; ring. }
  assert (ADJ : QuatR.shortestArc (QuatR.mkV 0 1 0) (QuatR.mkV 0 0 1)
                = QuatR.mkQ (/ sqrt 2) 0 0 (/ sqrt 2)).
  { rewrite QuatFacts.shortestArc_perpendicular_unit
      by (unfold QuatR.vdot, QuatR.vcross; cbn; ring).
    unfold QuatR.vcross; cbn. f_equal; ring. }
  assert (AE : QuatR.almost_equal QuatR.VERY_SMALL_ANGLE
                 (QuatR.mkQ (/ sqrt 2) 0 0 (/ sqrt 2)) QuatR.DEFAULT = false).
  { pose proof QuatFacts.VERY_SMALL_ANGLE_lt_half.
    pose proof QuatFacts.inv_sqrt2_gt_half.
    unfold QuatR.almost_equal, QuatR.DEFAULT. cbn [QuatR.qx QuatR.qy QuatR.qz QuatR.qw].
    destruct (Rlt_dec (Rabs (/ sqrt 2 - 0)) QuatR.VERY_SMALL_ANGLE) as [h|_].
    { rewrite Rminus_0_r, Rabs_pos_eq in h by lra. lra. }
    destruct (Rlt_dec (Rabs (/ sqrt 2 - - 0)) QuatR.VERY_SMALL_ANGLE) as [h|_].
    { rewrite Ropp_0, Rminus_0_r, Rabs_pos_eq in h by lra. lra. }
    reflexivity. }
  unfold Elbow.shoulder_back_rotation.
  cbn [JointRot.mRot Elbow.root_joint].
  rewrite QuatFacts.vrot_default, BP, ADJ, AE. cbn [negb].
  rewrite QuatFacts.qmul_default_l.
  rewrite QuatFacts.normalize_unit
    by (unfold QuatR.qnorm2; cbn; pose proof QuatFacts.inv_sqrt2_sq; lra).
  cbn [fst snd].
  assert (L : forall q r, JointRot.setLocalRot (JointRot.setWorldRot Elbow.root_joint q) r
                          = JointRot.setWorldRot Elbow.root_joint q) by reflexivity.
  rewrite L. cbn [JointRot.mRot JointRot.mLocalRot JointRot.setWorldRot Elbow.root_joint].
  split; [reflexivity|]. split; [reflexivity|]. split; [reflexivity|].
  intros H. pose proof QuatFacts.inv_sqrt2_pos.
  apply (f_equal QuatR.qx) in H. cbn [QuatR.qx QuatR.DEFAULT] in H. lra.
Qed.

Section EnforceFacts.
Variable computeAdjustedLocalRot : QuatR.LLQuaternion -> QuatR.LLQuaternion.
Variable almost_equal_default : QuatR.LLQuaternion -> QuatR.LLQuaternion -> bool.
Hypothesis almost_equal_default_refl : forall q, almost_equal_default q q = true.

(** C6.  [Constraint::enforce(joint)] is reached only through
    [Joint::enforceConstraint] (directly, or through the elbow and knee
    overrides of that joint's constraint), which returns [false] without
    calling it on a joint whose local rot is locked.  On the unlocked joints
    it is called on, [enforce] computes [computeAdjustedLocalRot(local_rot)];
    it writes that value into the local rot when it is not almost equal to
    the current one and changes nothing otherwise; it returns [true] iff the
    joint changed; and it leaves the world rot (and the flags) unchanged. *)
Theorem enforce_default_spec (joint : JointRot.Joint) :
  JointRot.localRotLocked joint = false ->
  let r := Enforce.enforce computeAdjustedLocalRot almost_equal_default joint in
  let local_rot := JointRot.mLocalRot joint in
  let adjusted := computeAdjustedLocalRot local_rot in
  JointRot.mRot (fst r) = JointRot.mRot joint /\
  JointRot.mIkFlags (fst r) = JointRot.mIkFlags joint /\
  JointRot.mHasParent (fst r) = JointRot.mHasParent joint /\
  JointRot.mLocalRot (fst r)
    = (if negb (almost_equal_default adjusted local_rot) then adjusted else local_rot) /\
  (snd r = true <-> fst r <> joint) /\
  (forall (C : Type) (mConstraint : option C) (mConfigFlags : Z) (j : JointRot.Joint),
     JointRot.localRotLocked j = true ->
     JointLock.enforceConstraint C
       (fun _ => Enforce.enforce computeAdjustedLocalRot almost_equal_default)
       mConstraint mConfigFlags j = (j, false)).
Proof.
  intros Hunl r local_rot adjusted.
  assert (G : forall (C : Type) (mConstraint : option C) (mConfigFlags : Z) (j : JointRot.Joint),
     JointRot.localRotLocked j = true ->
     JointLock.enforceConstraint C
       (fun _ => Enforce.enforce computeAdjustedLocalRot almost_equal_default)
       mConstraint mConfigFlags j = (j, false)).
  { intros C c f j L. unfold JointLock.enforceConstraint. rewrite L. reflexivity. }
  unfold r, adjusted, local_rot, Enforce.enforce.
  destruct (almost_equal_default (computeAdjustedLocalRot (JointRot.mLocalRot joint))
              (JointRot.mLocalRot joint)) eqn:E; cbn [negb fst snd].
  - split; [reflexivity|]. split; [reflexivity|]. split; [reflexivity|].
    split; [reflexivity|]. split; [|exact G].
    split; [discriminate | intros H; exfalso; apply H; reflexivity].
  - unfold JointRot.setLocalRot. rewrite Hunl.
    split; [reflexivity|]. split; [reflexivity|]. split; [reflexivity|].
    split; [reflexivity|]. split; [|exact G].
    split; [|reflexivity]. intros _ Heq.
    assert (Hl : computeAdjustedLocalRot (JointRot.mLocalRot joint) = JointRot.mLocalRot joint)
      by (rewrite <- Heq at 2; reflexivity).
    rewrite Hl, almost_equal_default_refl in E. discriminate.
Qed.
End EnforceFacts.

(** [enforce_default_spec] at the cone of half-angle 0 about x, with the
    tolerance 1/2, on an unlocked joint turned a quarter about z. *)
Lemma enforce_default_spec_witness :
  (forall q, QuatR.almost_equal (1 / 2) q q = true) /\
  JointRot.localRotLocked
    {| JointRot.mLocalRot := Enforce.quarter_z; JointRot.mRot := Enforce.quarter_z;
       JointRot.mIkFlags := 0%Z; JointRot.mHasParent := true |} = false /\
  JointRot.mRot (fst (Enforce.enforce (Enforce.computeAdjustedLocalRot Enforce.cone_x0)
                        (QuatR.almost_equal (1 / 2))
                        {| JointRot.mLocalRot := Enforce.quarter_z;
                           JointRot.mRot := Enforce.quarter_z;
                           JointRot.mIkFlags := 0%Z; JointRot.mHasParent := true |}))
  = Enforce.quarter_z.
Proof.
  assert (Hr : forall q, QuatR.almost_equal (1 / 2) q q = true)
    by (apply QuatFacts.almost_equal_refl; lra).
  assert (Hu : JointRot.localRotLocked
    {| JointRot.mLocalRot := Enforce.quarter_z; JointRot.mRot := Enforce.quarter_z;
       JointRot.mIkFlags := 0%Z; JointRot.mHasParent := true |} = false) by reflexivity.
  split; [exact Hr|]. split; [exact Hu|].
  exact (proj1 (enforce_default_spec (Enforce.computeAdjustedLocalRot Enforce.cone_x0)
                  (QuatR.almost_equal (1 / 2)) Hr
                  {| JointRot.mLocalRot := Enforce.quarter_z;
                     JointRot.mRot := Enforce.quarter_z;
                     JointRot.mIkFlags := 0%Z; JointRot.mHasParent := true |} Hu)).
Defined.

(* ------------------------------------------------------------------ *)
(** ** Further properties of the solver, the joints and the factory *)


(** Facts on [Z.land], [Z.lor] and [has] with a single bit. *)
Module BitFacts.
Import Flags.
Local Open Scope Z_scope.

Lemma land_pow2 (f k : Z) : 0 <= k ->
  Z.land f (2 ^ k) = if Z.testbit f k then 2 ^ k else 0.
Proof.
  intros Hk. apply Z.bits_inj'; intros n Hn.
  rewrite Z.land_spec, Z.pow2_bits_eqb by lia.
  destruct (Z.testbit f k) eqn:T.
  - rewrite Z.pow2_bits_eqb by lia.
    destruct (Z.eqb_spec k n); [subst; rewrite T; reflexivity | apply andb_false_r].
  - rewrite Z.bits_0.
    destruct (Z.eqb_spec k n); [subst; rewrite T; reflexivity | apply andb_false_r].
Qed.

Lemma has_shiftl (f k : Z) : 0 <= k -> has f (Z.shiftl 1 k) = Z.testbit f k.
Proof.
  intros Hk. unfold has. rewrite Z.shiftl_1_l, land_pow2 by lia.
  destruct (Z.testbit f k).
  - apply Z.ltb_lt, Z.pow_pos_nonneg; lia.
  - reflexivity.
Qed.

End BitFacts.

Module ClampFacts.
Import Angles Clamp.
Local Open Scope Q_scope.

Lemma qlt_true (a b : Q) : qlt a b = true <-> a < b.
Proof.
  unfold qlt. rewrite negb_true_iff. split; intros H.
  - apply Qnot_le_lt. intros H'. apply Qle_bool_iff in H'. congruence.
  - destruct (Qle_bool b a) eqn:E; [|reflexivity].
    apply Qle_bool_iff in E. exfalso. exact (Qlt_not_le _ _ H E).
Qed.

Lemma qlt_false (a b : Q) : qlt a b = false <-> b <= a.
Proof.
  unfold qlt. rewrite negb_false_iff. apply Qle_bool_iff.
Qed.

Lemma s32_cast_small (x : Q) : 0 <= x -> x < 1 -> s32_cast x = 0%Z.
Proof.
  destruct x as [n d]. unfold s32_cast, Qle, Qlt. cbn. intros H1 H2.
  apply Z.quot_small. lia.
Qed.

Lemma F_TWO_PI_eq : F_TWO_PI == 2 * F_PI.
Proof. reflexivity. Qed.

Lemma F_PI_pos : 0 < F_PI.
Proof. reflexivity. Qed.

(** X1.  With [min_angle <= max_angle], [compute_clamped_angle] returns a
    value in [[min_angle, max_angle]] or, when the angle with its full turns
    removed falls exactly on the invalid bisector, that bisector. *)
Theorem compute_clamped_angle_in_range (angle min_angle max_angle : Q) :
  min_angle <= max_angle ->
  let r := compute_clamped_angle angle min_angle max_angle in
  (min_angle <= r /\ r <= max_angle) \/ r == invalid_bisector min_angle max_angle.
Proof.
  intros Hle r. unfold r, compute_clamped_angle.
  destruct (qlt max_angle angle || qlt angle min_angle) eqn:G.
  2: { apply orb_false_iff in G as [G1 G2]. apply qlt_false in G1, G2.
       left; split; assumption. }
  cbv zeta.
  set (a := angle - inject_Z (s32_cast (angle / F_TWO_PI)) * F_TWO_PI).
  set (b := invalid_bisector min_angle max_angle).
  destruct ((qlt max_angle a && qlt a b) || qlt a (b - F_TWO_PI)) eqn:G1.
  { left; split; [exact Hle | apply Qle_refl]. }
  destruct (qlt a min_angle || qlt b a) eqn:G2.
  { left; split; [apply Qle_refl | exact Hle]. }
  apply orb_false_iff in G1 as [G1a _]. apply orb_false_iff in G2 as [G2a G2b].
  apply qlt_false in G2a, G2b.
  destruct (qlt max_angle a) eqn:M.
  - rewrite andb_true_l, qlt_false in G1a. right. apply Qle_antisym; assumption.
  - apply qlt_false in M. left; split; assumption.
Qed.

(** X2.  For limits aliased to [[-PI, PI)] with [min_angle <= max_angle],
    the invalid bisector itself lies above [max_angle], out of range, and
    [compute_clamped_angle] returns it unchanged. *)
Theorem compute_clamped_angle_bisector_unclamped (min_angle max_angle : Q) :
  - F_PI <= min_angle -> min_angle <= max_angle -> max_angle < F_PI ->
  let b := invalid_bisector min_angle max_angle in
  max_angle < b /\ compute_clamped_angle b min_angle max_angle == b.
Proof.
  intros H1 H2 H3 b.
  pose proof F_TWO_PI_eq as E. pose proof F_PI_pos as P.
  assert (Hb : max_angle < b) by (unfold b, invalid_bisector; Lqa.lra).
  split; [exact Hb|].
  unfold compute_clamped_angle.
  assert (G : qlt max_angle b = true) by (apply qlt_true; exact Hb).
  rewrite G, orb_true_l. cbv zeta.
  assert (Z0 : s32_cast (b / F_TWO_PI) = 0%Z).
  { apply s32_cast_small.
    - apply Qle_shift_div_l; [Lqa.lra|]. unfold b, invalid_bisector. Lqa.lra.
    - apply Qlt_shift_div_r; [Lqa.lra|]. unfold b, invalid_bisector. Lqa.lra. }
  rewrite Z0.
  fold b. set (a := b - inject_Z 0 * F_TWO_PI).
  assert (Ea : a == b) by (unfold a; change (inject_Z 0) with 0; Lqa.lra).
  destruct (qlt max_angle a && qlt a b) eqn:C1.
  { apply andb_true_iff in C1 as [_ C1]. apply qlt_true in C1. Lqa.lra. }
  destruct (qlt a (b - F_TWO_PI)) eqn:C2.
  { apply qlt_true in C2. Lqa.lra. }
  cbn [orb].
  destruct (qlt a min_angle) eqn:C3.
  { apply qlt_true in C3. Lqa.lra. }
  destruct (qlt b a) eqn:C4.
  { apply qlt_true in C4. Lqa.lra. }
  exact Ea.
Qed.


Lemma compute_clamped_angle_in_range_witness :
  (-1 <= 1) /\
  (let r := compute_clamped_angle 4 (-1) 1 in
   (-1 <= r /\ r <= 1) \/ r == invalid_bisector (-1) 1).
Proof.
  split; [unfold Qle; simpl; lia|].
  apply (compute_clamped_angle_in_range 4 (-1) 1). unfold Qle; simpl; lia.
Defined.

Lemma compute_clamped_angle_bisector_unclamped_witness :
  (- F_PI <= -1) /\ (-1 <= 1) /\ (1 < F_PI) /\
  (let b := invalid_bisector (-1) 1 in
   1 < b /\ compute_clamped_angle b (-1) 1 == b).
Proof.
  assert (H1 : - F_PI <= -1) by (unfold Qle; simpl; lia).
  assert (H2 : -1 <= 1) by (unfold Qle; simpl; lia).
  assert (H3 : 1 < F_PI) by (unfold Qlt; simpl; lia).
  split; [exact H1|]. split; [exact H2|]. split; [exact H3|].
  exact (compute_clamped_angle_bisector_unclamped (-1) 1 H1 H2 H3).
Defined.


End ClampFacts.


Module ConfigOpsFacts.
Import Flags ConfigDiff ConfigOps.
Local Open Scope Z_scope.

Section Facts.
Variable Vec Quat : Type.
Variable normalize : Quat -> Quat.

(** One conditional setter of [updateFrom] on the flags: [c.mFlags | (f & bit)]. *)
Lemma or_bit_if (f k : Z) (c c' : Config Vec Quat) : 0 <= k ->
  mFlags _ _ c' = Z.lor (mFlags _ _ c) (Z.shiftl 1 k) ->
  mFlags _ _ (if has f (Z.shiftl 1 k) then c' else c)
  = Z.lor (mFlags _ _ c) (Z.land f (Z.shiftl 1 k)).
Proof.
  intros Hk E. rewrite BitFacts.has_shiftl by exact Hk.
  rewrite Z.shiftl_1_l, BitFacts.land_pow2 by exact Hk. rewrite Z.shiftl_1_l in E.
  destruct (Z.testbit f k); [exact E | symmetry; apply Z.lor_0_r].
Qed.

Lemma updateFrom_steps (this other : Config Vec Quat) :
  Z.eqb (mFlags _ _ this) (mFlags _ _ other) = false ->
  let f := mFlags _ _ other in
  let c1 := if has f CONFIG_FLAG_LOCAL_POS
            then setLocalPos _ _ this (mLocalPos _ _ other) else this in
  let c2 := if has f CONFIG_FLAG_LOCAL_ROT
            then setLocalRot _ _ normalize c1 (mLocalRot _ _ other) else c1 in
  let c3 := if has f CONFIG_FLAG_TARGET_POS
            then setTargetPos _ _ c2 (mTargetPos _ _ other) else c2 in
  let c4 := if has f CONFIG_FLAG_TARGET_ROT
            then setTargetRot _ _ normalize c3 (mTargetRot _ _ other) else c3 in
  let c5 := if has f CONFIG_FLAG_LOCAL_SCALE
            then setLocalScale _ _ c4 (mLocalScale _ _ other) else c4 in
  updateFrom _ _ normalize this other
  = if has f CONFIG_FLAG_DISABLE_CONSTRAINT then disableConstraint _ _ c5 else c5.
Proof. intros E. unfold updateFrom. rewrite E. reflexivity. Qed.

(** X4.  [Config::updateFrom(other_config)]: when the two flag sets are
    equal, [*this] becomes [other_config] and so takes its flags; otherwise
    the new flags are the old ones with [other_config]'s bits among the six
    field flags ([LOCAL_POS] to [TARGET_ROT], bits 0 to 5, mask 63) or-ed in.
    No other bit of [other_config] (such as [CONFIG_FLAG_HAS_DELEGATED]) is
    copied, and no bit of [*this] is cleared. *)
Theorem updateFrom_flags (this other : Config Vec Quat) :
  mFlags _ _ (updateFrom _ _ normalize this other)
  = if Z.eqb (mFlags _ _ this) (mFlags _ _ other) then mFlags _ _ other
    else Z.lor (mFlags _ _ this) (Z.land (mFlags _ _ other) 63).
Proof.
  destruct (Z.eqb (mFlags _ _ this) (mFlags _ _ other)) eqn:E.
  { unfold updateFrom. rewrite E. reflexivity. }
  rewrite (updateFrom_steps this other E). cbv zeta.
  set (f := mFlags _ _ other).
  set (c1 := if has f CONFIG_FLAG_LOCAL_POS
             then setLocalPos _ _ this (mLocalPos _ _ other) else this).
  set (c2 := if has f CONFIG_FLAG_LOCAL_ROT
             then setLocalRot _ _ normalize c1 (mLocalRot _ _ other) else c1).
  set (c3 := if has f CONFIG_FLAG_TARGET_POS
             then setTargetPos _ _ c2 (mTargetPos _ _ other) else c2).
  set (c4 := if has f CONFIG_FLAG_TARGET_ROT
             then setTargetRot _ _ normalize c3 (mTargetRot _ _ other) else c3).
  set (c5 := if has f CONFIG_FLAG_LOCAL_SCALE
             then setLocalScale _ _ c4 (mLocalScale _ _ other) else c4).
  assert (H1 : mFlags _ _ c1 = Z.lor (mFlags _ _ this) (Z.land f (Z.shiftl 1 0)))
    by (apply or_bit_if; [lia | reflexivity]).
  assert (H2 : mFlags _ _ c2 = Z.lor (mFlags _ _ c1) (Z.land f (Z.shiftl 1 1)))
    by (apply or_bit_if; [lia | reflexivity]).
  assert (H3 : mFlags _ _ c3 = Z.lor (mFlags _ _ c2) (Z.land f (Z.shiftl 1 4)))
    by (apply or_bit_if; [lia | reflexivity]).
  assert (H4 : mFlags _ _ c4 = Z.lor (mFlags _ _ c3) (Z.land f (Z.shiftl 1 5)))
    by (apply or_bit_if; [lia | reflexivity]).
  assert (H5 : mFlags _ _ c5 = Z.lor (mFlags _ _ c4) (Z.land f (Z.shiftl 1 2)))
    by (apply or_bit_if; [lia | reflexivity]).
  assert (H6 : mFlags _ _ (if has f CONFIG_FLAG_DISABLE_CONSTRAINT
                           then disableConstraint _ _ c5 else c5)
               = Z.lor (mFlags _ _ c5) (Z.land f (Z.shiftl 1 3)))
    by (apply or_bit_if; [lia | reflexivity]).
  rewrite H6, H5, H4, H3, H2, H1.
  rewrite <- !Z.lor_assoc, <- !Z.land_lor_distr_r. reflexivity.
Qed.


(** X5.  [Config::updateFrom(other_config)]: with equal flags every field
    is [other_config]'s.  Otherwise each of the local pos, local rot, target
    pos, target rot and local scale is taken from [other_config] (the two
    rotations normalised by their setters) exactly when [other_config] has
    that field's flag, and is kept otherwise; [mChainLimit] is kept. *)
Theorem updateFrom_fields (this other : Config Vec Quat) :
  let r := updateFrom _ _ normalize this other in
  let f := mFlags _ _ other in
  let same := Z.eqb (mFlags _ _ this) f in
  mLocalPos _ _ r = (if same || has f CONFIG_FLAG_LOCAL_POS
                     then mLocalPos _ _ other else mLocalPos _ _ this) /\
  mLocalRot _ _ r = (if same then mLocalRot _ _ other
                     else if has f CONFIG_FLAG_LOCAL_ROT
                     then normalize (mLocalRot _ _ other) else mLocalRot _ _ this) /\
  mTargetPos _ _ r = (if same || has f CONFIG_FLAG_TARGET_POS
                      then mTargetPos _ _ other else mTargetPos _ _ this) /\
  mTargetRot _ _ r = (if same then mTargetRot _ _ other
                      else if has f CONFIG_FLAG_TARGET_ROT
                      then normalize (mTargetRot _ _ other) else mTargetRot _ _ this) /\
  mLocalScale _ _ r = (if same || has f CONFIG_FLAG_LOCAL_SCALE
                       then mLocalScale _ _ other else mLocalScale _ _ this) /\
  mChainLimit _ _ r = (if same then mChainLimit _ _ other else mChainLimit _ _ this).
Proof.
  cbv zeta.
  destruct (Z.eqb (mFlags _ _ this) (mFlags _ _ other)) eqn:E.
  { unfold updateFrom. rewrite E. cbn [orb]. repeat split. }
  rewrite (updateFrom_steps this other E). cbv zeta. cbn [orb].
  destruct (has (mFlags _ _ other) CONFIG_FLAG_LOCAL_POS),
           (has (mFlags _ _ other) CONFIG_FLAG_LOCAL_ROT),
           (has (mFlags _ _ other) CONFIG_FLAG_TARGET_POS),
           (has (mFlags _ _ other) CONFIG_FLAG_TARGET_ROT),
           (has (mFlags _ _ other) CONFIG_FLAG_LOCAL_SCALE),
           (has (mFlags _ _ other) CONFIG_FLAG_DISABLE_CONSTRAINT);
    repeat split.
Qed.

End Facts.
End ConfigOpsFacts.


Module ActiveChildFacts.
Import ActiveChild.

Section Facts.
Variable Child : Type.
Variable isActive : Child -> bool.

Lemma getSingleActiveChild_from (l : list Child) (a : option Child) :
  getSingleActiveChild Child isActive l a
  = match a, List.filter isActive l with
    | None, [c] => Some c
    | Some x, [] => Some x
    | _, _ => None
    end.
Proof.
  revert a. induction l as [|c rest IH]; intros a.
  - destruct a; reflexivity.
  - cbn. destruct (isActive c).
    + destruct a as [x|]; [reflexivity|]. rewrite IH. reflexivity.
    + rewrite IH. reflexivity.
Qed.

(** X6.  [getSingleActiveChild(active_child)] called with a null
    [active_child] leaves it pointing to the active child when exactly one
    of [mChildren] is active, and null when none or more than one is. *)
Theorem getSingleActiveChild_spec (mChildren : list Child) :
  getSingleActiveChild Child isActive mChildren None
  = match List.filter isActive mChildren with
    | [c] => Some c
    | _ => None
    end.
Proof.
  rewrite getSingleActiveChild_from. reflexivity.
Qed.
End Facts.
End ActiveChildFacts.

Module JointLockFacts.
Import Flags JointRot JointLock.
Local Open Scope Z_scope.

Lemma has_lor_shiftl (f g : Z) (k : Z) : 0 <= k ->
  has (Z.lor f g) (Z.shiftl 1 k) = Z.testbit f k || Z.testbit g k.
Proof. intros Hk. rewrite BitFacts.has_shiftl by exact Hk. apply Z.lor_spec. Qed.

(** X7.  After [lockLocalRot(local_rot)] the joint's local rot is locked
    and the joint is active; its local rot is [local_rot]; its world rot is
    [local_rot] when it has no parent and is unchanged otherwise.  A later
    [enforceConstraint] leaves it unchanged and returns [false], whatever
    the constraint and the config flags. *)
Theorem lockLocalRot_spec (j : Joint) (local_rot : QuatR.LLQuaternion) :
  let j' := lockLocalRot j local_rot in
  localRotLocked j' = true /\ isActive j' = true /\
  mLocalRot j' = local_rot /\
  mRot j' = (if mHasParent j then mRot j else local_rot) /\
  mHasParent j' = mHasParent j /\
  (forall (C : Type) (enforce : C -> Joint -> Joint * bool)
          (mConstraint : option C) (mConfigFlags : Z),
     enforceConstraint C enforce mConstraint mConfigFlags j' = (j', false)).
Proof.
  cbv zeta.
  assert (F : mIkFlags (lockLocalRot j local_rot)
              = Z.lor (Z.lor (mIkFlags j) IK_FLAG_LOCAL_ROT_LOCKED) IK_FLAG_ACTIVE)
    by (unfold lockLocalRot; destruct (mHasParent j); reflexivity).
  assert (L : localRotLocked (lockLocalRot j local_rot) = true).
  { unfold localRotLocked. rewrite F. unfold IK_FLAG_LOCAL_ROT_LOCKED, IK_FLAG_ACTIVE.
    rewrite has_lor_shiftl, Z.lor_spec by lia.
    rewrite Z.shiftl_1_l, Z.pow2_bits_true by lia. rewrite orb_true_r. reflexivity. }
  split; [exact L|].
  split.
  { unfold isActive. rewrite F. unfold IK_FLAG_ACTIVE.
    rewrite has_lor_shiftl by lia.
    rewrite Z.shiftl_1_l, Z.pow2_bits_true by lia. apply orb_true_r. }
  split; [unfold lockLocalRot; destruct (mHasParent j); reflexivity|].
  split; [unfold lockLocalRot; destruct (mHasParent j); reflexivity|].
  split; [unfold lockLocalRot; destruct (mHasParent j); reflexivity|].
  intros C enforce c f. unfold enforceConstraint. rewrite L. reflexivity.
Qed.

End JointLockFacts.

Module TargetsFacts.
Import Flags Targets.

Section Facts.
Variable Vec : Type.

Lemma collect_fold (ch : list (TChild Vec)) (ls ws : list Vec) :
  fold_left (fun acc child =>
               let '(ls, ws) := acc in
               if tc_active _ child then (ls ++ [tc_localPos _ child], ws ++ [tc_pos _ child])
               else (ls, ws)) ch (ls, ws)
  = (ls ++ map (tc_localPos _) (List.filter (tc_active _) ch),
     ws ++ map (tc_pos _) (List.filter (tc_active _) ch)).
Proof.
  revert ls ws. induction ch as [|c rest IH]; intros ls ws; cbn.
  - rewrite !app_nil_r. reflexivity.
  - destruct (tc_active _ c); rewrite IH; cbn; [rewrite <- !app_assoc; reflexivity | reflexivity].
Qed.

(** X9.  [collectTargetPositions]: with a position target it appends
    [mBone] to [local_targets] and the target position to [world_targets];
    otherwise it appends the local position and the world position of each
    active child, in the order of [mChildren].  The two vectors grow by the
    same number of entries. *)
Theorem collectTargetPositions_spec (mConfigFlags : Z) (mBone target_pos : Vec)
    (mChildren : list (TChild Vec)) (local_targets world_targets : list Vec) :
  let r := collectTargetPositions Vec mConfigFlags mBone target_pos mChildren
             local_targets world_targets in
  r = (if has mConfigFlags CONFIG_FLAG_TARGET_POS
       then (local_targets ++ [mBone], world_targets ++ [target_pos])
       else (local_targets ++ map (tc_localPos _) (List.filter (tc_active _) mChildren),
             world_targets ++ map (tc_pos _) (List.filter (tc_active _) mChildren))) /\
  (length (fst r) + length world_targets = length (snd r) + length local_targets)%nat.
Proof.
  cbv zeta. unfold collectTargetPositions.
  destruct (has mConfigFlags CONFIG_FLAG_TARGET_POS).
  - split; [reflexivity|]. cbn. rewrite !length_app. cbn. lia.
  - rewrite collect_fold. split; [reflexivity|]. cbn. rewrite !length_app, !length_map. lia.
Qed.
End Facts.
End TargetsFacts.


Module LongestChainFacts.
Import LongestChain.
Local Open Scope Q_scope.

Lemma fold_max {A : Type} (g : A -> Q) (l : list A) (init : Q) :
  let r := fold_left (fun acc c => if Qlt_le_dec acc (g c) then g c else acc) l init in
  (r = init \/ exists c, In c l /\ r = g c) /\ init <= r /\ (forall c, In c l -> g c <= r).
Proof.
  revert init. induction l as [|c rest IH]; intros init; cbn.
  - split; [left; reflexivity|]. split; [apply Qle_refl | intros _ []].
  - destruct (Qlt_le_dec init (g c)) as [Hlt|Hle];
      destruct (IH (if Qlt_le_dec init (g c) then g c else init)) as [D [I A']];
      destruct (Qlt_le_dec init (g c)); try (exfalso; Lqa.lra).
    + split; [destruct D as [D|[c' [Hc' D]]]; right; [exists c | exists c']; auto|].
      split; [Lqa.lra|]. intros c' [<-|Hc']; [exact I | exact (A' c' Hc')].
    + split; [destruct D as [D|[c' [Hc' D]]]; [left; exact D | right; exists c'; auto]|].
      split; [exact I|]. intros c' [<-|Hc']; [Lqa.lra | exact (A' c' Hc')].
Qed.

Lemma rec_node (lp bone : Q) (ch : list JTree) (length : Q) :
  recursiveComputeLongestChainLength (JNode lp bone ch) length
  = match ch with
    | [] => length + lp + bone
    | _ => fold_left (fun acc c =>
                        if Qlt_le_dec acc (recursiveComputeLongestChainLength c (length + lp))
                        then recursiveComputeLongestChainLength c (length + lp) else acc)
                     ch (length + lp)
    end.
Proof. destruct ch; reflexivity. Qed.

Lemma path_lengths_node (lp bone : Q) (ch : list JTree) :
  path_lengths (JNode lp bone ch)
  = match ch with
    | [] => [lp + bone]
    | _ => map (Qplus lp) (flat_map path_lengths ch)
    end.
Proof. destruct ch; reflexivity. Qed.

Lemma lengths_nonneg_node (lp bone : Q) (ch : list JTree) :
  lengths_nonneg (JNode lp bone ch) = true ->
  0 <= lp /\ 0 <= bone /\ (forall c, In c ch -> lengths_nonneg c = true).
Proof.
  cbn. intros H. apply andb_true_iff in H as [H H3]. apply andb_true_iff in H as [H1 H2].
  apply Qle_bool_iff in H1, H2. split; [exact H1|]. split; [exact H2|].
  apply List.forallb_forall. exact H3.
Qed.

Lemma in_paths_node (lp : Q) (c : JTree) (cs : list JTree) (p : Q) :
  In p (map (Qplus lp) (flat_map path_lengths (c :: cs))) <->
  exists c' p', In c' (c :: cs) /\ In p' (path_lengths c') /\ p = lp + p'.
Proof.
  rewrite List.in_map_iff. split.
  - intros [p' [<- Hp']]. apply List.in_flat_map in Hp' as [c' [Hc Hp]].
    exists c', p'. auto.
  - intros [c' [p' [Hc [Hp ->]]]]. exists p'. split; [reflexivity|].
    apply List.in_flat_map. exists c'. auto.
Qed.

Lemma paths_nonneg (t : JTree) :
  lengths_nonneg t = true -> forall p, In p (path_lengths t) -> 0 <= p.
Proof.
  induction t as [lp bone ch IH] using JTree_ind'. intros Hn p Hp.
  apply lengths_nonneg_node in Hn as [Hlp [Hb Hch]].
  rewrite path_lengths_node in Hp. destruct ch as [|c cs].
  - destruct Hp as [<-|[]]. Lqa.lra.
  - apply in_paths_node in Hp as [c' [p' [Hc [Hp ->]]]].
    rewrite List.Forall_forall in IH.
    pose proof (IH c' Hc (Hch c' Hc) p' Hp). Lqa.lra.
Qed.

(** X10.  On a subtree whose stored lengths are not negative,
    [recursiveComputeLongestChainLength(length)] is [length] plus the longest
    root-to-leaf path, where a path's length is the sum of the
    [mLocalPosLength]s along it plus the leaf's bone length: the result equals
    [length + p] for some path length [p] and is at least [length + p] for
    every one. *)
Theorem recursiveComputeLongestChainLength_spec (t : JTree) (length : Q) :
  lengths_nonneg t = true ->
  let r := recursiveComputeLongestChainLength t length in
  (exists p, In p (path_lengths t) /\ r == length + p) /\
  (forall p, In p (path_lengths t) -> length + p <= r).
Proof.
  revert length.
  induction t as [lp bone ch IH] using JTree_ind'. intros length Hn. cbv zeta.
  pose proof (paths_nonneg _ Hn) as Hpn.
  apply lengths_nonneg_node in Hn as [Hlp [Hb Hch]].
  rewrite rec_node, path_lengths_node. destruct ch as [|c cs].
  - split.
    + exists (lp + bone). split; [left; reflexivity | Lqa.lra].
    + intros p [<-|[]]. Lqa.lra.
  - rewrite List.Forall_forall in IH.
    destruct (fold_max (fun c => recursiveComputeLongestChainLength c (length + lp))
                (c :: cs) (length + lp)) as [D [I A]].
    cbv beta in D, I, A.
    set (r := fold_left _ _ _) in *.
    split.
    + destruct D as [D|[c' [Hc' D]]].
      * destruct (IH c (or_introl eq_refl) (length + lp) (Hch c (or_introl eq_refl)))
          as [[p' [Hp' E]] _].
        pose proof (A c (or_introl eq_refl)) as Ac.
        pose proof (paths_nonneg c (Hch c (or_introl eq_refl)) p' Hp').
        exists (lp + p'). split.
        -- apply in_paths_node. exists c, p'. split; [left; reflexivity|]. auto.
        -- rewrite D in *. Lqa.lra.
      * destruct (IH c' Hc' (length + lp) (Hch c' Hc')) as [[p' [Hp' E]] _].
        exists (lp + p'). split.
        -- apply in_paths_node. exists c', p'. auto.
        -- rewrite D. Lqa.lra.
    + intros p Hp. apply in_paths_node in Hp as [c' [p' [Hc' [Hp' ->]]]].
      destruct (IH c' Hc' (length + lp) (Hch c' Hc')) as [_ B].
      pose proof (B p' Hp'). pose proof (A c' Hc'). Lqa.lra.
Qed.
Lemma recursiveComputeLongestChainLength_spec_witness :
  lengths_nonneg (JNode 0 1 [JNode 2 3 []; JNode 1 0 [JNode 4 1 []]]) = true /\
  (let r := recursiveComputeLongestChainLength
              (JNode 0 1 [JNode 2 3 []; JNode 1 0 [JNode 4 1 []]]) 0 in
   (exists p, In p (path_lengths (JNode 0 1 [JNode 2 3 []; JNode 1 0 [JNode 4 1 []]]))
              /\ r == 0 + p) /\
   (forall p, In p (path_lengths (JNode 0 1 [JNode 2 3 []; JNode 1 0 [JNode 4 1 []]])) ->
              0 + p <= r)).
Proof.
  assert (H : lengths_nonneg (JNode 0 1 [JNode 2 3 []; JNode 1 0 [JNode 4 1 []]]) = true)
    by reflexivity.
  split; [exact H|].
  exact (recursiveComputeLongestChainLength_spec _ 0 H).
Defined.

End LongestChainFacts.

Module ReachFacts.
Import Hashing Reach.
Local Open Scope Z_scope.

Lemma v3neg_involutive (v : Vec3) : v3neg (v3neg v) = v.
Proof.
  destruct v as [[[xn xd] [yn yd]] [zn zd]]. unfold v3neg, Qopp. cbn.
  rewrite !Z.opp_involutive. reflexivity.
Qed.

(** X11.  [computeReach] is antisymmetric: for distinct ids [a] and [b],
    [computeReach(a, b) = - computeReach(b, a)]; both calls walk up from the
    larger id towards the smaller. *)
Theorem computeReach_swap (mSkeleton : gmap Z RJoint) (a b : Z) :
  a <> b -> computeReach mSkeleton a b = v3neg (computeReach mSkeleton b a).
Proof.
  intros Hab. unfold computeReach.
  rewrite !Z.gtb_ltb.
  destruct (Z.ltb a b) eqn:E1; destruct (Z.ltb b a) eqn:E2.
  - apply Z.ltb_lt in E1, E2. lia.
  - reflexivity.
  - rewrite v3neg_involutive. reflexivity.
  - apply Z.ltb_ge in E1, E2. lia.
Qed.

Lemma chain_to_head (sk : gmap Z RJoint) (anc y : Z) (r : list Z) :
  chain_to sk anc (y :: r) = true -> exists jy, sk !! y = Some jy.
Proof.
  destruct r; cbn; destruct (sk !! y); eauto; discriminate.
Qed.

Lemma chain_to_in (sk : gmap Z RJoint) (anc : Z) (l : list Z) :
  chain_to sk anc l = true -> forall x, In x l -> is_Some (sk !! x).
Proof.
  induction l as [|y r IH]; intros H x Hx; [destruct Hx|].
  destruct Hx as [Hy|Hx].
  - subst y. destruct (chain_to_head sk anc x r H) as [j Hj]. rewrite Hj. eexists; reflexivity.
  - destruct r as [|y' r']; [destruct Hx|]. apply IH; [|exact Hx].
    cbn in H. destruct (sk !! y) as [jy|]; [|discriminate].
    destruct (rParent jy); [|discriminate].
    apply andb_true_iff in H as [_ H]. exact H.
Qed.

Lemma reach_loop_chain (sk : gmap Z RJoint) (anc : Z) (a : RJoint) (rest : list Z) :
  sk !! anc = Some a ->
  forall x j acc fuel, sk !! x = Some j -> chain_to sk anc (x :: rest) = true ->
  (length (x :: rest) <= fuel)%nat ->
  reach_loop sk anc fuel j acc = reach_sum sk (x :: rest) acc.
Proof.
  intros Ha. induction rest as [|y rest' IH]; intros x j acc fuel Hx Hc Hf;
    (destruct fuel as [|f]; [cbn in Hf; lia|]).
  - cbn in Hc. rewrite Hx in Hc. destruct (rParent j) as [p|] eqn:P; [|discriminate].
    apply Z.eqb_eq in Hc. subst p.
    cbn. rewrite P, Ha, Z.eqb_refl. unfold reach_sum. cbn. rewrite Hx. reflexivity.
  - assert (Hc' := Hc). cbn in Hc'. rewrite Hx in Hc'.
    destruct (rParent j) as [p|] eqn:P; [|discriminate].
    apply andb_true_iff in Hc' as [Hc' Hrest]. apply andb_true_iff in Hc' as [Hp Hy].
    apply Z.eqb_eq in Hp. subst p. apply negb_true_iff in Hy.
    destruct (chain_to_head sk anc y rest' Hrest) as [jy Hjy].
    cbn [reach_loop]. rewrite P, Hjy, Hy.
    rewrite (IH y jy _ f Hjy Hrest) by (cbn in Hf |- *; lia).
    unfold reach_sum. cbn [fold_left]. rewrite Hx. reflexivity.
Qed.

(** X12.  When [from_id < to_id], both joints exist, and [to_id :: ids]
    (distinct ids) is a walk up the parent links from [to_id] whose last
    joint is a child of [from_id] and which does not meet [from_id] before,
    [computeReach(to_id, from_id)] is the bone of [to_id] plus the local
    positions of the joints of the walk. *)
Theorem computeReach_chain (mSkeleton : gmap Z RJoint) (to_id from_id : Z)
    (ids : list Z) (jt ja : RJoint) :
  from_id < to_id ->
  mSkeleton !! to_id = Some jt -> mSkeleton !! from_id = Some ja ->
  chain_to mSkeleton from_id (to_id :: ids) = true -> NoDup (to_id :: ids) ->
  computeReach mSkeleton to_id from_id = reach_sum mSkeleton (to_id :: ids) (rBone jt).
Proof.
  intros Hlt Ht Ha Hc Hnd.
  assert (Hsz : (length (to_id :: ids) <= size mSkeleton)%nat).
  { rewrite <- (size_list_to_set (C := gset Z) _ Hnd), <- size_dom.
    apply subseteq_size. intros x Hx. apply elem_of_list_to_set in Hx.
    apply elem_of_dom. apply (chain_to_in _ _ _ Hc). apply list_elem_of_In. exact Hx. }
  unfold computeReach.
  assert (G : Z.gtb from_id to_id = false) by (rewrite Z.gtb_ltb; apply Z.ltb_ge; lia).
  rewrite G, Ht. apply (reach_loop_chain _ _ _ _ Ha); assumption.
Qed.
Lemma computeReach_swap_witness :
  (1 <> 2) /\
  computeReach ReachScenario.skeleton 1 2 = v3neg (computeReach ReachScenario.skeleton 2 1).
Proof.
  assert (H : 1 <> 2) by lia.
  split; [exact H|]. exact (computeReach_swap ReachScenario.skeleton 1 2 H).
Defined.

Lemma computeReach_chain_witness :
  0 < 2 /\
  ReachScenario.skeleton !! 2 = Some ReachScenario.joint2 /\
  ReachScenario.skeleton !! 0 = Some ReachScenario.joint0 /\
  chain_to ReachScenario.skeleton 0 [2; 1] = true /\ NoDup [2; 1] /\
  computeReach ReachScenario.skeleton 2 0
  = reach_sum ReachScenario.skeleton [2; 1] (rBone ReachScenario.joint2).
Proof.
  assert (H1 : 0 < 2) by lia.
  assert (H2 : ReachScenario.skeleton !! 2 = Some ReachScenario.joint2) by reflexivity.
  assert (H3 : ReachScenario.skeleton !! 0 = Some ReachScenario.joint0) by reflexivity.
  assert (H4 : chain_to ReachScenario.skeleton 0 [2; 1] = true) by reflexivity.
  assert (H5 : NoDup [2; 1]) by (apply (bool_decide_unpack _); vm_compute; reflexivity).
  split; [exact H1|]. split; [exact H2|]. split; [exact H3|].
  split; [exact H4|]. split; [exact H5|].
  exact (computeReach_chain ReachScenario.skeleton 2 0 [1] _ _ H1 H2 H3 H4 H5).
Defined.

End ReachFacts.


Module SkeletonOpsFacts.
Import Chains SkeletonOps.
Local Open Scope Z_scope.

Lemma linked_b_spec (sk : gmap Z Joint) : linked_b sk = true <-> linked sk.
Proof.
  unfold linked_b, linked. rewrite List.forallb_forall. split.
  - intros H id j Hj.
    assert (Hin : In (id, j) (map_to_list sk))
      by (apply list_elem_of_In, elem_of_map_to_list; exact Hj).
    specialize (H _ Hin). cbn in H. apply andb_true_iff in H as [Hp Hc]. split.
    + intros p Ep. rewrite Ep in Hp. destruct (sk !! p) as [pj|]; [|discriminate].
      exists pj. split; [reflexivity|].
      apply existsb_exists in Hp as [x [Hx Ex]]. apply Z.eqb_eq in Ex. subst x. exact Hx.
    + intros c Hcin. rewrite List.forallb_forall in Hc. specialize (Hc c Hcin).
      destruct (sk !! c) as [cj|]; [|discriminate].
      destruct (mParent cj) as [q|] eqn:Eq; [|discriminate].
      apply Z.eqb_eq in Hc. subst q. exists cj. auto.
  - intros H [id j] Hin.
    apply list_elem_of_In, elem_of_map_to_list in Hin.
    destruct (H id j Hin) as [Hp Hc]. apply andb_true_iff. split.
    + destruct (mParent j) as [p|]; [|reflexivity].
      destruct (Hp p eq_refl) as [pj [Epj Hid]]. rewrite Epj.
      apply existsb_exists. exists id. split; [exact Hid | apply Z.eqb_refl].
    + apply List.forallb_forall. intros c Hcin.
      destruct (Hc c Hcin) as [cj [Ecj Pc]]. rewrite Ecj, Pc. apply Z.eqb_refl.
Qed.

(** The entries of the skeleton after a successful [addJoint]. *)
Lemma addJoint_lookup (mRootID : Z) (sk : gmap Z Joint) (joint_id parent_id : Z) :
  0 <= joint_id -> sk !! joint_id = None ->
  is_Some (sk !! parent_id) \/ parent_id < mRootID ->
  forall k, addJoint mRootID sk joint_id parent_id !! k
  = if decide (k = joint_id)
    then Some (new_joint (match sk !! parent_id with Some _ => Some parent_id | None => None end))
    else match sk !! parent_id with
         | Some parent => if decide (k = parent_id) then Some (addChild parent joint_id)
                          else sk !! k
         | None => sk !! k
         end.
Proof.
  intros H0 Hn Hp k. unfold addJoint.
  assert (L : Z.ltb joint_id 0 = false) by (apply Z.ltb_ge; lia).
  rewrite L, Hn. destruct (sk !! parent_id) as [parent|] eqn:P.
  - rewrite !lookup_insert.
    destruct (decide (joint_id = k)), (decide (k = joint_id)); try congruence.
    destruct (decide (parent_id = k)), (decide (k = parent_id)); congruence.
  - assert (R : Z.leb mRootID parent_id = false)
      by (apply Z.leb_gt; destruct Hp as [[x Hx]|Hp]; [congruence | exact Hp]).
    rewrite R, lookup_insert.
    destruct (decide (joint_id = k)), (decide (k = joint_id)); congruence.
Qed.

Lemma linked_step (sk sk' : gmap Z Joint) (jid : Z) (pj : option Z) :
  linked sk -> sk' !! jid = Some (new_joint pj) ->
  (forall k x, sk !! k = Some x -> exists x', sk' !! k = Some x' /\
     mParent x' = mParent x /\ (forall c, In c (mChildren x) -> In c (mChildren x'))) ->
  (forall k x', sk' !! k = Some x' -> k = jid \/
     exists x, sk !! k = Some x /\ mParent x' = mParent x /\
       (forall c, In c (mChildren x') -> In c (mChildren x) \/ (c = jid /\ pj = Some k))) ->
  (forall p, pj = Some p -> exists x', sk' !! p = Some x' /\ In jid (mChildren x')) ->
  linked sk'.
Proof.
  intros Hl Hj Hold Hnew Hpar id j Hid.
  destruct (Hnew id j Hid) as [->|[x [Hx [Px Cx]]]].
  - rewrite Hj in Hid. injection Hid as <-. cbn. split; [exact Hpar | intros c []].
  - destruct (Hl id x Hx) as [Pp Pc]. split.
    + intros p Ep. rewrite Px in Ep. destruct (Pp p Ep) as [ppj [Eppj Inp]].
      destruct (Hold p ppj Eppj) as [ppj' [E' [_ C']]]. exists ppj'. auto.
    + intros c Hc. destruct (Cx c Hc) as [Hc'|[-> Epj]].
      * destruct (Pc c Hc') as [cj [Ecj Pcj]].
        destruct (Hold c cj Ecj) as [cj' [E' [P' _]]]. exists cj'. split; [exact E'|congruence].
      * exists (new_joint pj). split; [exact Hj | exact Epj].
Qed.

Lemma addJoint_linked_prop (mRootID : Z) (sk : gmap Z Joint) (joint_id parent_id : Z) :
  linked sk -> linked (addJoint mRootID sk joint_id parent_id).
Proof.
  intros Hl.
  destruct (Z.ltb joint_id 0) eqn:Neg.
  { unfold addJoint. rewrite Neg. exact Hl. }
  destruct (sk !! joint_id) as [x|] eqn:Ex.
  { unfold addJoint. rewrite Neg, Ex. exact Hl. }
  assert (Neg' := Neg). apply Z.ltb_ge in Neg'.
  destruct (sk !! parent_id) as [parent|] eqn:P.
  - assert (Hne : parent_id <> joint_id) by congruence.
    assert (L := addJoint_lookup mRootID sk joint_id parent_id Neg' Ex
                   (or_introl (ex_intro _ parent P))).
    rewrite P in L. cbv beta iota in L.
    apply (linked_step sk _ joint_id (Some parent_id) Hl).
    + rewrite L. destruct (decide (joint_id = joint_id)); [reflexivity | congruence].
    + intros k y Hy. rewrite L.
      destruct (decide (k = joint_id)); [congruence|].
      destruct (decide (k = parent_id)) as [->|].
      * rewrite P in Hy. injection Hy as <-. eexists. split; [reflexivity|].
        split; [reflexivity|]. intros c Hc. apply in_or_app. left. exact Hc.
      * eexists. split; [exact Hy|]. split; [reflexivity | auto].
    + intros k y Hy. rewrite L in Hy.
      destruct (decide (k = joint_id)); [left; exact e|]. right.
      destruct (decide (k = parent_id)) as [->|].
      * injection Hy as <-. exists parent. split; [exact P|]. split; [reflexivity|].
        intros c Hc. cbn in Hc. apply in_app_or in Hc as [Hc|[<-|[]]]; [left; exact Hc|].
        right. auto.
      * exists y. split; [exact Hy|]. split; [reflexivity|]. auto.
    + intros p Ep. injection Ep as <-. exists (addChild parent joint_id). split.
      * rewrite L. destruct (decide (parent_id = joint_id)); [congruence|].
        destruct (decide (parent_id = parent_id)); [reflexivity|congruence].
      * cbn. apply in_or_app. right. left. reflexivity.
  - destruct (Z.leb mRootID parent_id) eqn:R.
    { unfold addJoint. rewrite Neg, Ex, P, R. exact Hl. }
    apply Z.leb_gt in R.
    assert (L := addJoint_lookup mRootID sk joint_id parent_id Neg' Ex (or_intror R)).
    rewrite P in L. cbv beta iota in L.
    apply (linked_step sk _ joint_id None Hl).
    + rewrite L. destruct (decide (joint_id = joint_id)); [reflexivity | congruence].
    + intros k y Hy. rewrite L. destruct (decide (k = joint_id)); [congruence|].
      eexists. split; [exact Hy|]. split; [reflexivity | auto].
    + intros k y Hy. rewrite L in Hy.
      destruct (decide (k = joint_id)); [left; exact e|]. right.
      exists y. split; [exact Hy|]. split; [reflexivity|]. auto.
    + intros p Ep. discriminate.
Qed.


(** X14.  Otherwise [addJoint] stores a new childless joint under
    [joint_id], whose parent is [parent_id] when that joint exists and null
    when it does not; it appends [joint_id] to that parent's children and
    changes no other entry. *)
Theorem addJoint_adds (mRootID : Z) (sk : gmap Z Joint) (joint_id parent_id : Z) :
  0 <= joint_id -> sk !! joint_id = None ->
  is_Some (sk !! parent_id) \/ parent_id < mRootID ->
  forall k, addJoint mRootID sk joint_id parent_id !! k
  = if decide (k = joint_id)
    then Some (new_joint (match sk !! parent_id with Some _ => Some parent_id | None => None end))
    else match sk !! parent_id with
         | Some parent => if decide (k = parent_id) then Some (addChild parent joint_id)
                          else sk !! k
         | None => sk !! k
         end.
Proof. exact (addJoint_lookup mRootID sk joint_id parent_id). Qed.

(** X15.  [addJoint] keeps the parent and child links of the skeleton
    mutual and inside the skeleton ([linked_b]). *)
Theorem addJoint_linked (mRootID : Z) (sk : gmap Z Joint) (joint_id parent_id : Z) :
  linked_b sk = true -> linked_b (addJoint mRootID sk joint_id parent_id) = true.
Proof.
  rewrite !linked_b_spec. apply addJoint_linked_prop.
Qed.

Lemma addJoint_adds_witness :
  0 <= 1 /\ ({[0 := new_joint None]} : gmap Z Joint) !! 1 = None /\
  (is_Some (({[0 := new_joint None]} : gmap Z Joint) !! 0) \/ 0 < 0) /\
  addJoint 0 {[0 := new_joint None]} 1 0 !! 0 = Some (addChild (new_joint None) 1).
Proof.
  assert (H1 : 0 <= 1) by lia.
  assert (H2 : ({[0 := new_joint None]} : gmap Z Joint) !! 1 = None) by reflexivity.
  assert (H3 : is_Some (({[0 := new_joint None]} : gmap Z Joint) !! 0) \/ 0 < 0)
    by (left; exists (new_joint None); reflexivity).
  split; [exact H1|]. split; [exact H2|]. split; [exact H3|].
  exact (addJoint_adds 0 {[0 := new_joint None]} 1 0 H1 H2 H3 0).
Defined.

Lemma addJoint_linked_witness :
  linked_b ({[0 := new_joint None]} : gmap Z Joint) = true /\
  linked_b (addJoint 0 {[0 := new_joint None]} 1 0) = true.
Proof.
  assert (H : linked_b ({[0 := new_joint None]} : gmap Z Joint) = true) by reflexivity.
  split; [exact H|]. exact (addJoint_linked 0 {[0 := new_joint None]} 1 0 H).
Defined.

End SkeletonOpsFacts.


Module FactoryFacts.
Import String Factory.

Section Facts.
Variable Constraint LLSD : Type.
Context {eqd : EqDecision Constraint}.
Variable create : LLSD -> option Constraint.
Variable generateHash : Constraint -> Z.

Lemma keyed_b_spec (mc : gmap Z Constraint) :
  keyed_b _ generateHash mc = true <-> keyed _ generateHash mc.
Proof.
  unfold keyed_b, keyed. rewrite List.forallb_forall. split.
  - intros H id c Hc.
    assert (Hin : In (id, c) (map_to_list mc))
      by (apply list_elem_of_In, elem_of_map_to_list; exact Hc).
    apply Z.eqb_eq. exact (H _ Hin).
  - intros H [id c] Hin. apply list_elem_of_In, elem_of_map_to_list in Hin.
    apply Z.eqb_eq. exact (H _ _ Hin).
Qed.

Lemma shared_names_b_spec (mc : gmap Z Constraint) (jm : gmap String.string Constraint) :
  shared_names_b _ generateHash mc jm = true <-> shared_names _ generateHash mc jm.
Proof.
  unfold shared_names_b, shared_names. rewrite List.forallb_forall. split.
  - intros H n c Hc.
    assert (Hin : In (n, c) (map_to_list jm))
      by (apply list_elem_of_In, elem_of_map_to_list; exact Hc).
    specialize (H _ Hin). cbn in H.
    destruct (mc !! generateHash c) as [c'|]; [|discriminate].
    apply bool_decide_eq_true in H. subst c'. reflexivity.
  - intros H [n c] Hin. apply list_elem_of_In, elem_of_map_to_list in Hin.
    rewrite (H _ _ Hin). apply bool_decide_eq_true. reflexivity.
Qed.

(** [getConstraint] on a keyed cache, in the Prop form. *)
Lemma getConstraint_prop (mc : gmap Z Constraint) (d : LLSD) :
  keyed _ generateHash mc ->
  let res := getConstraint _ _ create generateHash mc d in
  keyed _ generateHash (fst res) /\
  (snd res = None <-> create d = None) /\
  (forall p, snd res = Some p -> fst res !! generateHash p = Some p) /\
  (forall k v, mc !! k = Some v -> fst res !! k = Some v).
Proof.
  intros Hk. cbv zeta. unfold getConstraint.
  destruct (create d) as [ptr|] eqn:C.
  2: { cbn. split; [exact Hk|]. split; [tauto|]. split; [discriminate | auto]. }
  destruct (mc !! generateHash ptr) as [shared|] eqn:S; cbn.
  - split; [exact Hk|]. split; [split; discriminate|].
    split; [|auto]. intros p Ep. injection Ep as <-.
    rewrite (Hk _ _ S). exact S.
  - split.
    { intros id c Hc. rewrite lookup_insert in Hc.
      destruct (decide (generateHash ptr = id)) as [<-|]; [injection Hc as <-; reflexivity|].
      exact (Hk _ _ Hc). }
    split; [split; discriminate|].
    split.
    + intros p Ep. injection Ep as <-. apply lookup_insert_eq.
    + intros k v Hv. rewrite lookup_insert.
      destruct (decide (generateHash ptr = k)) as [<-|]; [congruence | exact Hv].
Qed.

(** X16.  [getConstraint(constraint_def)] on a cache whose instances are
    stored under their own hashes keeps that property; it returns null exactly
    when [create] does; the instance it returns is the one the cache holds
    under its hash; and it changes or removes no cached entry. *)
Theorem getConstraint_spec (mc : gmap Z Constraint) (constraint_def : LLSD) :
  keyed_b _ generateHash mc = true ->
  let res := getConstraint _ _ create generateHash mc constraint_def in
  keyed_b _ generateHash (fst res) = true /\
  (snd res = None <-> create constraint_def = None) /\
  (forall p, snd res = Some p -> fst res !! generateHash p = Some p) /\
  (forall k v, mc !! k = Some v -> fst res !! k = Some v).
Proof.
  intros Hk. apply keyed_b_spec in Hk. cbv zeta. rewrite keyed_b_spec.
  exact (getConstraint_prop mc constraint_def Hk).
Qed.

(** X17.  [getConstraint] is idempotent: a second call with the same
    definition returns the same instance and leaves the cache as the first
    call left it. *)
Theorem getConstraint_idempotent (mc : gmap Z Constraint) (constraint_def : LLSD) :
  let res := getConstraint _ _ create generateHash mc constraint_def in
  getConstraint _ _ create generateHash (fst res) constraint_def = res.
Proof.
  cbv zeta. unfold getConstraint.
  destruct (create constraint_def) as [ptr|]; [|reflexivity].
  destruct (mc !! generateHash ptr) as [shared|] eqn:S; cbn.
  - rewrite S. reflexivity.
  - rewrite lookup_insert_eq. reflexivity.
Qed.

Lemma process_prop (mappings : list (String.string * LLSD)) :
  forall (mc : gmap Z Constraint) (jm : gmap String.string Constraint),
  keyed _ generateHash mc -> shared_names _ generateHash mc jm ->
  let res := processConstraintMappings _ _ create generateHash mc jm mappings in
  keyed _ generateHash (fst res) /\ shared_names _ generateHash (fst res) (snd res) /\
  (forall n c, jm !! n = Some c -> snd res !! n = Some c) /\
  (forall k v, mc !! k = Some v -> fst res !! k = Some v).
Proof.
  induction mappings as [|[joint_name d] rest IH]; intros mc jm Hk Hs; cbv zeta.
  - cbn. auto.
  - unfold processConstraintMappings. cbn [fold_left].
    destruct (getConstraint_prop mc d Hk) as [Hk' [_ [Hp Hm]]].
    destruct (getConstraint _ _ create generateHash mc d) as [mc' r] eqn:G.
    cbn [fst snd] in Hk', Hp, Hm.
    set (jm' := match r with
                | Some c => match jm !! joint_name with
                            | Some _ => jm
                            | None => <[joint_name := c]> jm
                            end
                | None => jm
                end).
    assert (Hs' : shared_names _ generateHash mc' jm').
    { intros n c Hc. unfold jm' in Hc. destruct r as [c0|].
      - destruct (jm !! joint_name) eqn:J.
        + exact (Hm _ _ (Hs _ _ Hc)).
        + rewrite lookup_insert in Hc. destruct (decide (joint_name = n)).
          * injection Hc as <-. exact (Hp c0 eq_refl).
          * exact (Hm _ _ (Hs _ _ Hc)).
      - exact (Hm _ _ (Hs _ _ Hc)). }
    assert (Hj : forall n c, jm !! n = Some c -> jm' !! n = Some c).
    { intros n c Hc. unfold jm'. destruct r as [c0|]; [|exact Hc].
      destruct (jm !! joint_name) eqn:J; [exact Hc|].
      rewrite lookup_insert. destruct (decide (joint_name = n)) as [<-|]; [congruence | exact Hc]. }
    destruct (IH mc' jm' Hk' Hs') as [A [B [C D]]].
    fold (processConstraintMappings _ _ create generateHash mc' jm' rest).
    split; [exact A|]. split; [exact B|]. split; auto.
Qed.

(** X18.  [processConstraintMappings(mappings)], from a cache keyed by
    hash in which every named constraint is the cached instance of its hash,
    keeps both properties; every joint name that already had a constraint
    keeps it ([getConstraintByName] returns the same instance), and every
    cached entry stays. *)
Theorem processConstraintMappings_spec (mConstraints : gmap Z Constraint)
    (mJointMapping : gmap String.string Constraint) (mappings : list (String.string * LLSD)) :
  keyed_b _ generateHash mConstraints = true ->
  shared_names_b _ generateHash mConstraints mJointMapping = true ->
  let res := processConstraintMappings _ _ create generateHash
               mConstraints mJointMapping mappings in
  keyed_b _ generateHash (fst res) = true /\
  shared_names_b _ generateHash (fst res) (snd res) = true /\
  (forall n c, getConstraintByName _ mJointMapping n = Some c ->
               getConstraintByName _ (snd res) n = Some c) /\
  (forall k v, mConstraints !! k = Some v -> fst res !! k = Some v).
Proof.
  rewrite keyed_b_spec, shared_names_b_spec. intros Hk Hs.
  destruct (process_prop mappings mConstraints mJointMapping Hk Hs) as [A [B [C D]]].
  cbv zeta. rewrite keyed_b_spec, shared_names_b_spec.
  split; [exact A|]. split; [exact B|]. split; [exact C | exact D].
Qed.
End Facts.

(** A factory over integer definitions: [create] refuses negative ones and
    builds the constraint [d] from [d] otherwise; the hash is the identity. *)
Lemma getConstraint_spec_witness :
  keyed_b Z (fun c => c) {[3%Z := 3%Z]} = true /\
  (let res := getConstraint Z Z (fun d => if Z.ltb d 0 then None else Some d) (fun c => c)
                {[3%Z := 3%Z]} 5%Z in
   keyed_b Z (fun c => c) (fst res) = true /\
   (snd res = None <-> (if Z.ltb 5 0 then None else Some 5%Z) = None) /\
   (forall p, snd res = Some p -> fst res !! p = Some p) /\
   (forall k v, ({[3%Z := 3%Z]} : gmap Z Z) !! k = Some v -> fst res !! k = Some v)).
Proof.
  assert (H : keyed_b Z (fun c => c) {[3%Z := 3%Z]} = true) by reflexivity.
  split; [exact H|].
  exact (getConstraint_spec Z Z (fun d => if Z.ltb d 0 then None else Some d) (fun c => c)
           {[3%Z := 3%Z]} 5%Z H).
Defined.

Lemma processConstraintMappings_spec_witness :
  keyed_b Z (fun c => c) ∅ = true /\
  shared_names_b Z (fun c => c) ∅ ∅ = true /\
  (let res := processConstraintMappings Z Z (fun d => if Z.ltb d 0 then None else Some d)
                (fun c => c) ∅ ∅ [("hip"%string, 1%Z); ("knee"%string, (-1)%Z); ("hip"%string, 2%Z)] in
   keyed_b Z (fun c => c) (fst res) = true /\
   shared_names_b Z (fun c => c) (fst res) (snd res) = true /\
   (forall n c, getConstraintByName Z ∅ n = Some c -> getConstraintByName Z (snd res) n = Some c) /\
   (forall k v, (∅ : gmap Z Z) !! k = Some v -> fst res !! k = Some v)).
Proof.
  assert (H1 : keyed_b Z (fun c => c) ∅ = true) by reflexivity.
  assert (H2 : shared_names_b Z (fun c => c) ∅ ∅ = true) by reflexivity.
  split; [exact H1|]. split; [exact H2|].
  exact (processConstraintMappings_spec Z Z (fun d => if Z.ltb d 0 then None else Some d)
           (fun c => c) ∅ ∅ _ H1 H2).
Defined.

Lemma toupper_idempotent (c : Ascii.ascii) : toupper (toupper c) = toupper c.
Proof.
  unfold toupper. cbv zeta.
  destruct (Nat.leb 97 (Ascii.nat_of_ascii c) && Nat.leb (Ascii.nat_of_ascii c) 122) eqn:E.
  - apply andb_true_iff in E as [E1 E2]. apply Nat.leb_le in E1, E2.
    rewrite Ascii.nat_ascii_embedding by lia.
    assert (F : Nat.leb 97 (Ascii.nat_of_ascii c - 32) = false) by (apply Nat.leb_gt; lia).
    rewrite F. reflexivity.
  - rewrite E. reflexivity.
Qed.

Lemma to_upper_idempotent (s : String.string) : to_upper (to_upper s) = to_upper s.
Proof.
  induction s as [|c s IH]; [reflexivity|]. cbn. rewrite toupper_idempotent, IH. reflexivity.
Qed.

(** X19.  [create] recognises the name [constraint_type_to_name] gives
    each of the seven types it builds, and builds nothing for the names of
    [NULL_CONSTRAINT] and [UNKNOWN_CONSTRAINT]. *)
Theorem create_type_names (t : ConstraintType) :
  create_type (constraint_type_to_name t)
  = match t with
    | NULL_CONSTRAINT | UNKNOWN_CONSTRAINT => None
    | _ => Some t
    end.
Proof. destruct t; vm_compute; reflexivity. Qed.

(** X20.  [create(data)] builds a constraint of type [t] iff the
    upper-cased [data["type"]] is [t]'s name and [t] is one of the seven
    types it builds. *)
Theorem create_type_spec (type : String.string) (t : ConstraintType) :
  create_type type = Some t <->
  (to_upper type = constraint_type_to_name t /\
   t <> NULL_CONSTRAINT /\ t <> UNKNOWN_CONSTRAINT).
Proof.
  split.
  - unfold create_type.
    repeat match goal with
           | |- (if String.eqb ?a ?b then _ else _) = _ -> _ =>
               destruct (String.eqb_spec a b) as [E|_]
           end;
      intros H; try discriminate; injection H as <-; rewrite E;
      (split; [reflexivity | split; discriminate]).
  - intros [E [N U]]. unfold create_type. rewrite E.
    destruct t; try contradiction; vm_compute; reflexivity.
Qed.

(** X21.  [create] ignores letter case: upper-casing the type string
    beforehand changes nothing, since [boost::to_upper] is idempotent. *)
Theorem create_type_to_upper (type : String.string) :
  create_type (to_upper type) = create_type type.
Proof. unfold create_type. rewrite to_upper_idempotent. reflexivity. Qed.
End FactoryFacts.

